(** * Breadcrumbs matrix view: traversals, index outline and neighbourhood squares

    A shallow embedding of the pure core of [src/MatrixView.ts]:
    [removeDuplicateImplied], [dfsAllPaths], [dfsAdjList], [createIndex],
    [squareItems] and the parts of [draw] that filter the adjacency list and
    assemble the three squares.

    Conventions.
    - Note names are [string]s; JavaScript arrays are [list]s.
    - A JavaScript object used as a dictionary is a [gmap string _].  The
      object [visited] of [createIndex] is read through its own
      [hasOwnProperty]; the module [JS] models it for the keys "__proto__"
      and "hasOwnProperty" as well, with [None] for a TypeError.
    - The two [while] loops carry their counter [i] in the loop state and are
      defined by well-founded recursion on [bound - i]; the source fixes the
      bound to [1000]. *)

From Equations Require Import Equations.
From stdpp Require Import base option list strings pretty gmap.

Set Default Proof Using "Type".

(** ** The graph interface used by the view *)

(** graphlib's [Graph] is imported by the source, not defined in it.  The view
    only calls [successors] and [predecessors]; both answer [undefined] for a
    node the graph does not hold and otherwise the keys of the node's
    successor (predecessor) table, in insertion order. *)
Record Graph : Type := mkGraph {
  sucs : gmap string (list string);
  preds : gmap string (list string)
}.

Definition successors (g : Graph) (v : string) : option (list string) :=
  sucs g !! v.

Definition predecessors (g : Graph) (v : string) : option (list string) :=
  preds g !! v.

(** [x ?? []] *)
Definition orEmpty {A : Type} (x : option (list A)) : list A := default [] x.

Definition emptyGraph : Graph := mkGraph ∅ ∅.

Definition addKey (k : string) (m : gmap string (list string)) :
  gmap string (list string) :=
  match m !! k with
  | Some _ => m
  | None => <[k := []]> m
  end.

Definition addTo (w : string) (l : list string) : list string :=
  if bool_decide (w ∈ l) then l else l ++ [w].

Definition setNode (v : string) (g : Graph) : Graph :=
  mkGraph (addKey v (sucs g)) (addKey v (preds g)).

(** [g.setEdge(v, w)]: both end points become nodes, [w] is recorded once
    among the successors of [v] and [v] once among the predecessors of [w]. *)
Definition setEdge (v w : string) (g : Graph) : Graph :=
  let g' := setNode w (setNode v g) in
  mkGraph (alter (addTo w) v (sucs g')) (alter (addTo v) w (preds g')).

Definition graphOfEdges (es : list (string * string)) : Graph :=
  foldl (fun g e => setEdge e.1 e.2 g) emptyGraph es.

(** ** [dfsAllPaths] *)

Record QueueItem : Type := mkItem { node : string; path : list string }.

Record PathsState : Type := mkPaths {
  queue : list QueueItem;
  pathsArr : list (list string);
  i : nat
}.

(** One turn of the loop body, after [queue.shift()] has returned [currPath]
    and left [rest] in the queue. *)
Definition dfsAllPaths_body (g : Graph) (st : PathsState)
    (currPath : QueueItem) (rest : list QueueItem) : PathsState :=
  let newNodes := orEmpty (successors g (node currPath)) in
  let extPath := node currPath :: path currPath in
  mkPaths
    (map (fun n => mkItem n extPath) newNodes ++ rest)
    (if length newNodes =? 0 then pathsArr st ++ [extPath] else pathsArr st)
    (S (i st)).

(** [while (queue.length > 0 && i < bound) { i++; ... }] *)
Equations? dfsAllPaths_loop (bound : nat) (g : Graph) (st : PathsState) :
    PathsState by wf (bound - i st) lt :=
  dfsAllPaths_loop bound g st with queue st, decide (i st < bound) := {
    | currPath :: rest, left _ :=
        dfsAllPaths_loop bound g (dfsAllPaths_body g st currPath rest);
    | _, _ := st }.
Proof. simpl. lia. Qed.

Definition dfsAllPaths_init (startNode : string) : PathsState :=
  mkPaths [mkItem startNode []] [] 0.

Definition dfsAllPaths_run (g : Graph) (startNode : string) : PathsState :=
  dfsAllPaths_loop 1000 g (dfsAllPaths_init startNode).

Definition dfsAllPaths (g : Graph) (startNode : string) : list (list string) :=
  pathsArr (dfsAllPaths_run g startNode).

(** One iteration seen as a state transformer (the identity once the queue is
    empty); used to count iterations. *)
Definition dfsAllPaths_iter (g : Graph) (st : PathsState) : PathsState :=
  match queue st with
  | currPath :: rest => dfsAllPaths_body g st currPath rest
  | [] => st
  end.

(** ** [dfsAdjList] *)

Record AdjListItem : Type := mkAdj { name : string; parentId : string }.

Global Instance AdjListItem_eq_dec : EqDecision AdjListItem.
Proof. solve_decision. Defined.

Record AdjState : Type := mkAdjState {
  nodeQueue : list string;
  adjList : list AdjListItem;
  adjI : nat
}.

(** The callback of [newNodes.forEach]: the successor is put at the front of
    the queue and its entry at the end of the list. *)
Definition dfsAdjList_visit (currNode : string)
    (acc : list string * list AdjListItem) (succ : string) :
    list string * list AdjListItem :=
  (succ :: acc.1, acc.2 ++ [mkAdj currNode succ]).

Definition dfsAdjList_body (g : Graph) (st : AdjState)
    (currNode : string) (rest : list string) : AdjState :=
  let newNodes := orEmpty (successors g currNode) in
  let r := foldl (dfsAdjList_visit currNode) (rest, adjList st) newNodes in
  mkAdjState r.1 r.2 (S (adjI st)).

Equations? dfsAdjList_loop (bound : nat) (g : Graph) (st : AdjState) :
    AdjState by wf (bound - adjI st) lt :=
  dfsAdjList_loop bound g st with nodeQueue st, decide (adjI st < bound) := {
    | currNode :: rest, left _ :=
        dfsAdjList_loop bound g (dfsAdjList_body g st currNode rest);
    | _, _ := st }.
Proof. simpl. lia. Qed.

Definition dfsAdjList_init (startNode : string) : AdjState :=
  mkAdjState [startNode] [] 0.

Definition dfsAdjList_run (g : Graph) (startNode : string) : AdjState :=
  dfsAdjList_loop 1000 g (dfsAdjList_init startNode).

Definition dfsAdjList (g : Graph) (startNode : string) : list AdjListItem :=
  adjList (dfsAdjList_run g startNode).

Definition dfsAdjList_iter (g : Graph) (st : AdjState) : AdjState :=
  match nodeQueue st with
  | currNode :: rest => dfsAdjList_body g st currNode rest
  | [] => st
  end.

(** ** [removeDuplicateImplied] *)

Record internalLinkObj : Type := mkLink { to : string; cls : string }.

(** [arr.includes(x)] *)
Definition includes {A : Type} `{EqDecision A} (arr : list A) (x : A) : bool :=
  bool_decide (x ∈ arr).

Definition removeDuplicateImplied (reals implieds : list internalLinkObj) :
    list internalLinkObj :=
  let realTos := map to reals in
  filter (fun implied => negb (includes realTos (to implied))) implieds.

(** ** [createIndex] *)

(** The host application, as far as the view reads it: the table of
    unresolved links of the metadata cache and, per note, the [alias] and
    [aliases] entries of its front matter (already flattened). *)
Record App : Type := mkApp {
  unresolvedLinks : gmap string (gmap string nat);
  frontmatterAlias : string -> list string;
  frontmatterAliases : string -> list string
}.

Record BreadcrumbsSettings : Type := mkSettings {
  wikilinkIndex : bool;
  aliasesInIndex : bool;
  showNameOrType : bool;
  parentFieldName : string;
  siblingFieldName : string;
  childFieldName : string
}.

Definition LF : string := String (Ascii.ascii_of_nat 10) EmptyString.

Definition indent : string := "  ".

(** [s.repeat(n)] *)
Fixpoint repeatString (s : string) (n : nat) : string :=
  match n with
  | 0 => ""
  | S n' => s +:+ repeatString s n'
  end.

(** [arr.join(sep)] *)
Fixpoint join (sep : string) (arr : list string) : string :=
  match arr with
  | [] => ""
  | [x] => x
  | x :: rest => x +:+ sep +:+ join sep rest
  end.

(** The loop state of [createIndex]: [out] is the text accumulated in the
    variable [index], [visited] the table of depths already rendered.  The
    table is an object keyed by note name.  [visitedAt], [createIndex_render]
    and [createIndex] below read it as a finite map, which is what the object
    is for every note name but "__proto__" and "hasOwnProperty"; the module
    [JS] further down models the object for these two names as well, and
    [JS_createIndex_agrees] relates the two readings. *)
Record IndexState : Type := mkIndex {
  out : string;
  visited : gmap string (list nat)
}.

(** [visited.hasOwnProperty(currNode) && visited[currNode].includes(depth)] *)
Definition visitedAt (visited : gmap string (list nat)) (currNode : string)
    (depth : nat) : bool :=
  match visited !! currNode with
  | Some depths => includes depths depth
  | None => false
  end.

(** The [else] branch of the inner loop: one outline line is appended and the
    depth is recorded for the node.  The aliases are those of the note's
    front matter; that the source reaches them through
    [getActiveFile().path] is modelled in [JS.createIndex_visit]. *)
Definition createIndex_render (app : App) (settings : BreadcrumbsSettings)
    (st : IndexState) (depth : nat) (currNode : string) : IndexState :=
  let index := out st +:+ (repeatString indent depth +:+ "- ") in
  let index := index +:+ (if wikilinkIndex settings then "[[" else "") in
  let index := index +:+ currNode in
  let index := index +:+ (if wikilinkIndex settings then "]]" else "") in
  let index :=
    if aliasesInIndex settings then
      let allAliases := frontmatterAlias app currNode ++ frontmatterAliases app currNode in
      if 0 <? length allAliases
      then index +:+ (" (" +:+ join ", " allAliases +:+ ")")
      else index
    else index in
  let index := index +:+ LF in
  let visited :=
    match visited st !! currNode with
    | Some _ => visited st
    | None => <[currNode := []]> (visited st)
    end in
  let visited := alter (fun depths => depths ++ [depth]) currNode visited in
  mkIndex index visited.

(** [for (let depth = 0; depth < path.length; depth++)], started at [depth]
    with [path] the elements still to come. *)
Fixpoint createIndex_path (app : App) (settings : BreadcrumbsSettings)
    (depth : nat) (path : list string) (st : IndexState) : IndexState :=
  match path with
  | [] => st
  | currNode :: rest =>
      createIndex_path app settings (S depth) rest
        (if visitedAt (visited st) currNode depth
         then st
         else createIndex_render app settings st depth currNode)
  end.

(** [cloneDeep] copies the paths, each copy is reversed in place and loses
    its first element ([shift]).  The paths handed in by the two index
    commands are the arrays pushed by [dfsAllPaths], each a distinct array. *)
Definition createIndex (app : App) (index : string)
    (allPaths : list (list string)) (settings : BreadcrumbsSettings) : string :=
  let copy := allPaths in
  let reversed := map (fun path => rev path) copy in
  let reversed := map (fun path => tail path) reversed in
  out
    (foldl (fun st path => createIndex_path app settings 0 path st)
       (mkIndex index ∅) reversed).

(** ** [draw]: the filtered adjacency list *)

(** [arr.findIndex(p)], [-1] when no element satisfies [p]. *)
Fixpoint findIndex {A : Type} (p : A -> bool) (arr : list A) : Z :=
  match arr with
  | [] => (-1)%Z
  | x :: rest =>
      if p x then 0%Z
      else let r := findIndex p rest in
           if (r <? 0)%Z then (-1)%Z else (r + 1)%Z
  end.

(** [self.filter((thing, index, self) => p(thing, index, self))], on the
    elements [arr] that start at position [index] of [self]. *)
Fixpoint filterFrom {A : Type} (p : A -> nat -> list A -> bool)
    (self : list A) (index : nat) (arr : list A) : list A :=
  match arr with
  | [] => []
  | thing :: rest =>
      if p thing index self
      then thing :: filterFrom p self (S index) rest
      else filterFrom p self (S index) rest
  end.

Definition filterIndexed {A : Type} (p : A -> nat -> list A -> bool)
    (self : list A) : list A :=
  filterFrom p self 0 self.

Definition sameEntry (thing t : AdjListItem) : bool :=
  bool_decide (name t = name thing) && bool_decide (parentId t = parentId thing).

Definition noDoubles (adjList : list AdjListItem) : list AdjListItem :=
  filterIndexed
    (fun thing index self => (Z.of_nat index =? findIndex (sameEntry thing) self)%Z)
    adjList.

Record TFile : Type := mkFile { basename : string; filePath : string }.

(** The list [draw] hands to [createTreeHierarchy]; [closedParents] is the
    graph returned by [closeImpliedLinks]. *)
Definition draw_noDoubles (closedParents : Graph) (currFile : TFile) :
    list AdjListItem :=
  noDoubles (dfsAdjList closedParents (basename currFile)).

(** ** [draw]: the three squares *)

Definition unresolvedQ (app : App) (to from : string) : bool :=
  match unresolvedLinks app !! from with
  | None => false
  | Some links =>
      match links !! to with
      | Some n => 0 <? n
      | None => false
      end
  end.

Definition squareItems (app : App) (g : Graph) (currFile : TFile)
    (realQ : bool) : list internalLinkObj :=
  let items :=
    if realQ then orEmpty (successors g (basename currFile))
    else orEmpty (predecessors g (basename currFile)) in
  if 0 <? length items then
    map (fun item =>
           mkLink item
             ("internal-link breadcrumbs-link"
              +:+ (if unresolvedQ app item (filePath currFile) then " is-unresolved" else "")
              +:+ (if realQ then "" else " breadcrumbs-implied")))
        items
  else [].

(** [arr.indexOf(x)] *)
Definition indexOf (arr : list string) (x : string) : Z :=
  findIndex (fun y => bool_decide (y = x)) arr.

(** [arr.splice(start, 1)]: a negative [start] counts from the end. *)
Definition splice1 {A : Type} (start : Z) (arr : list A) : list A :=
  let len := Z.of_nat (length arr) in
  let from := if (start <? 0)%Z then Z.max (len + start) 0 else Z.min start len in
  delete (Z.to_nat from) arr.

Definition impliedSiblingsOf (app : App) (gParents : Graph) (currFile : TFile)
    (parent : string) : list internalLinkObj :=
  let impliedSiblings := orEmpty (predecessors gParents parent) in
  let indexCurrNote := indexOf impliedSiblings (basename currFile) in
  let impliedSiblings := splice1 indexCurrNote impliedSiblings in
  map (fun impliedSibling =>
         mkLink impliedSibling
           ("internal-link breadcrumbs-link breadcrumbs-implied"
            +:+ (if unresolvedQ app impliedSibling (filePath currFile)
                 then " is-unresolved" else "")))
      impliedSiblings.

Record SquareProps : Type := mkSquare {
  realItems : list internalLinkObj;
  impliedItems : list internalLinkObj;
  fieldName : string
}.

Record Squares : Type := mkSquares {
  parentsSquare : SquareProps;
  siblingSquare : SquareProps;
  childrenSquare : SquareProps
}.

Definition draw_squares (app : App) (settings : BreadcrumbsSettings)
    (gParents gSiblings gChildren : Graph) (currFile : TFile) : Squares :=
  let parentFieldName' := if showNameOrType settings then parentFieldName settings else "Parent" in
  let siblingFieldName' := if showNameOrType settings then siblingFieldName settings else "Sibling" in
  let childFieldName' := if showNameOrType settings then childFieldName settings else "Child" in
  let realParents := squareItems app gParents currFile true in
  let realSiblings := squareItems app gSiblings currFile true in
  let realChildren := squareItems app gChildren currFile true in
  let impliedParents := squareItems app gChildren currFile false in
  let impliedChildren := squareItems app gParents currFile false in
  let currParents := orEmpty (successors gParents (basename currFile)) in
  let impliedSiblingsArr :=
    if 0 <? length currParents
    then concat (map (impliedSiblingsOf app gParents currFile) currParents)
    else [] in
  let impliedSiblingsArr :=
    impliedSiblingsArr ++ squareItems app gSiblings currFile false in
  let impliedParents := removeDuplicateImplied realParents impliedParents in
  let impliedSiblingsArr := removeDuplicateImplied realSiblings impliedSiblingsArr in
  let impliedChildren := removeDuplicateImplied realChildren impliedChildren in
  mkSquares
    (mkSquare realParents impliedParents parentFieldName')
    (mkSquare realSiblings impliedSiblingsArr siblingFieldName')
    (mkSquare realChildren impliedChildren childFieldName').

(** ** Reference descriptions used in the statements *)

(** Deduplication that keeps an element the first time it is seen and drops
    every later copy; [seen] holds what has been met so far. *)
Fixpoint keepFirstSeen {A : Type} `{EqDecision A} (seen : list A) (l : list A) :
    list A :=
  match l with
  | [] => []
  | x :: rest =>
      if bool_decide (x ∈ seen) then keepFirstSeen seen rest
      else x :: keepFirstSeen (seen ++ [x]) rest
  end.

(** The nodes of a trimmed path with their depths, counted from [depth]. *)
Fixpoint withDepth (depth : nat) (path : list string) : list (string * nat) :=
  match path with
  | [] => []
  | currNode :: rest => (currNode, depth) :: withDepth (S depth) rest
  end.

(** Every (node, depth) occurrence of the outline, path after path: each path
    is turned start first and loses the start node. *)
Definition occurrences (allPaths : list (list string)) : list (string * nat) :=
  concat (map (fun path => withDepth 0 (tail (rev path))) allPaths).

Definition renderedLines (allPaths : list (list string)) : list (string * nat) :=
  keepFirstSeen [] (occurrences allPaths).

(** The text of the outline line of a node at a depth. *)
Definition outlineLine (app : App) (settings : BreadcrumbsSettings)
    (entry : string * nat) : string :=
  let allAliases := frontmatterAlias app entry.1 ++ frontmatterAliases app entry.1 in
  repeatString indent entry.2 +:+ "- "
  +:+ (if wikilinkIndex settings then "[[" else "")
  +:+ entry.1
  +:+ (if wikilinkIndex settings then "]]" else "")
  +:+ (if aliasesInIndex settings && (0 <? length allAliases)
       then " (" +:+ join ", " allAliases +:+ ")" else "")
  +:+ LF.

Definition concatLines (lines : list string) : string :=
  foldr String.app "" lines.

(** ** Walks of a graph *)

(** [walk g s t w]: [w] lists, start first, the nodes of a walk of [g] from
    [s] to [t]; every node is followed by one of its successors. *)
Inductive walk (g : Graph) : string -> string -> list string -> Prop :=
  | walk_here v : walk g v v [v]
  | walk_step v m t w :
      m ∈ orEmpty (successors g v) -> walk g m t w -> walk g v t (v :: w).

(** A sink has no successor (it may also be missing from the graph). *)
Definition isSink (g : Graph) (v : string) : Prop :=
  orEmpty (successors g v) = [].

(** Successor lists without repetition, as graphlib returns them (they are
    the keys of a table). *)
Definition simpleGraph (g : Graph) : Prop :=
  map_Forall (fun _ newNodes => NoDup newNodes) (sucs g).

(** ** The unfolding of a graph from a node *)

Fixpoint sumOpt (l : list (option nat)) : option nat :=
  match l with
  | [] => Some 0
  | o :: rest =>
      match o, sumOpt rest with
      | Some k, Some r => Some (k + r)
      | _, _ => None
      end
  end.

(** The number of walks that leave [n] (the nodes of the tree of walks
    unfolded from [n]), provided none of them has more than [depth] nodes;
    [None] otherwise, in particular when a cycle can be reached from [n]. *)
Fixpoint unfoldSize (g : Graph) (depth : nat) (n : string) : option nat :=
  match depth with
  | 0 => None
  | S depth' =>
      match sumOpt (map (unfoldSize g depth') (orEmpty (successors g n))) with
      | Some k => Some (S k)
      | None => None
      end
  end.

(** The walks from [n] to a sink that have at most [depth] nodes, each turned
    sink first and put in front of [path], in depth-first order of the
    successor lists. *)
Fixpoint walksFrom (g : Graph) (depth : nat) (n : string) (path : list string) :
    list (list string) :=
  match depth with
  | 0 => []
  | S depth' =>
      match orEmpty (successors g n) with
      | [] => [n :: path]
      | newNodes => concat (map (fun m => walksFrom g depth' m (n :: path)) newNodes)
      end
  end.

(** ** Invariants of the loops *)

(** Every queued partial path and every finalised path is, read backwards, a
    walk that leaves the start node; finalised paths stop at a sink. *)
Definition pathsSound (g : Graph) (s : string) (st : PathsState) : Prop :=
  (forall it, it ∈ queue st -> walk g s (node it) (rev (node it :: path it)))
  /\ (forall p, p ∈ pathsArr st -> exists t, walk g s t (rev p) /\ isSink g t).

(** The state of [createIndex] after the lines [acc] have been rendered on
    top of the starting text [index0]. *)
Definition rendered (app : App) (settings : BreadcrumbsSettings)
    (index0 : string) (acc : list (string * nat)) (st : IndexState) : Prop :=
  out st = index0 +:+ concatLines (map (outlineLine app settings) acc)
  /\ forall n d, visitedAt (visited st) n d = true <-> (n, d) ∈ acc.

(** ** Example graphs *)

(** Mid is a child of Root, Leaf a child of Mid. *)
Definition childrenGraph : Graph :=
  graphOfEdges [("Root", "Mid"); ("Mid", "Leaf")].

(** The diamond Root -> A -> Leaf, Root -> B -> Leaf, continued by
    Leaf -> X. *)
Definition diamondGraph : Graph :=
  graphOfEdges
    [("Root", "A"); ("Root", "B"); ("A", "Leaf"); ("B", "Leaf"); ("Leaf", "X")].

(** S -> L and S -> C, where C is its own successor. *)
Definition loopingGraph : Graph :=
  graphOfEdges [("S", "L"); ("S", "C"); ("C", "C")].

(** The single edge S -> L. *)
Definition plainGraph : Graph :=
  graphOfEdges [("S", "L")].

(** A root R with the [n] children c0, c1, ... *)
Definition starGraph (n : nat) : Graph :=
  graphOfEdges (map (fun k => ("R", "c" +:+ pretty k)) (seq 0 n)).

(** The two-node cycle A -> B -> A. *)
Definition cycleGraph : Graph :=
  graphOfEdges [("A", "B"); ("B", "A")].

(** A host application without unresolved links and aliases, and settings
    with every option off. *)
Definition plainApp : App := mkApp ∅ (fun _ => []) (fun _ => []).

Definition plainSettings : BreadcrumbsSettings :=
  mkSettings false false false "" "" "".

(** Child has the parents ParentA and ParentB in the parents graph; the
    children graph lists Child under ParentA and ParentC. *)
Definition parentsOfChild : Graph :=
  graphOfEdges [("Child", "ParentA"); ("Child", "ParentB"); ("Other", "ParentA")].

Definition childrenOfParents : Graph :=
  graphOfEdges [("ParentA", "Child"); ("ParentC", "Child")].

(** What holds of every state of the traversal of the two-node cycle. *)
Definition cycleInv (bound : nat) (st : PathsState) : Prop :=
  pathsArr st = [] /\ i st <= bound
  /\ exists n path, queue st = [mkItem n path] /\ (n = "A" \/ n = "B").

(** ** The index commands of [onload] *)

(** The callback of the command "local-index", up to the clipboard: [closed]
    is the graph returned by [closeImpliedLinks], [currFile] the base name of
    the active file. *)
Definition localIndex (app : App) (closed : Graph) (currFile : string)
    (settings : BreadcrumbsSettings) : string :=
  let allPaths := dfsAllPaths closed currFile in
  createIndex app (currFile +:+ LF) allPaths settings.


(** ** The earlier version of the view *)

(** The second copy of the view in the source differs in [createIndex]: it
    takes the name of the current file instead of a starting text and knows
    no aliases. *)
Module Earlier.

Definition createIndex_render (settings : BreadcrumbsSettings)
    (st : IndexState) (depth : nat) (currNode : string) : IndexState :=
  let txt := out st +:+ (repeatString indent depth +:+ "- ") in
  let txt := txt +:+ (if wikilinkIndex settings then "[[" else "") in
  let txt := txt +:+ currNode in
  let txt := txt +:+ (if wikilinkIndex settings then "]]" else "") in
  let txt := txt +:+ LF in
  let visited :=
    match visited st !! currNode with
    | Some _ => visited st
    | None => <[currNode := []]> (visited st)
    end in
  let visited := alter (fun depths => depths ++ [depth]) currNode visited in
  mkIndex txt visited.

Fixpoint createIndex_path (settings : BreadcrumbsSettings)
    (depth : nat) (path : list string) (st : IndexState) : IndexState :=
  match path with
  | [] => st
  | currNode :: rest =>
      createIndex_path settings (S depth) rest
        (if visitedAt (visited st) currNode depth
         then st
         else createIndex_render settings st depth currNode)
  end.

Definition createIndex (allPaths : list (list string)) (currFile : string)
    (settings : BreadcrumbsSettings) : string :=
  let copy := allPaths in
  let reversed := map (fun path => rev path) copy in
  let reversed := map (fun path => tail path) reversed in
  let txt := currFile +:+ LF in
  out
    (foldl (fun st path => createIndex_path settings 0 path st)
       (mkIndex txt ∅) reversed).

End Earlier.

(** ** [createIndex] with [visited] as a JavaScript object *)

(** [createIndex] above reads the table [visited] as a finite map and takes
    the front matter as always at hand.  The module [JS] follows the source
    in the two places where it departs from that, and where it can raise a
    TypeError ([None] below):
    - [visited] is an object literal, read through [visited.hasOwnProperty].
      An assignment to the key "__proto__" replaces the prototype and adds no
      own property; an assignment to the key "hasOwnProperty" replaces the
      method by an array, so that the next call of it fails;
    - the aliases are looked up from [getActiveFile().path], which fails
      when no file is active. *)
Module JS.

(** A note name that is an ordinary key of [visited]. *)
Definition ordinaryName (n : string) : Prop :=
  n <> "__proto__" /\ n <> "hasOwnProperty".

Global Instance ordinaryName_dec n : Decision (ordinaryName n).
Proof. unfold ordinaryName. apply _. Defined.

(** [visited.hasOwnProperty(key)], on the own properties of [visited]. *)
Definition hasOwnProperty (visited : gmap string (list nat)) (key : string) :
    option bool :=
  match visited !! "hasOwnProperty" with
  | Some _ => None
  | None =>
      Some (negb (bool_decide (key = "__proto__"))
            && bool_decide (is_Some (visited !! key)))
  end.

(** [visited[key] = []] *)
Definition assignEmpty (key : string) (visited : gmap string (list nat)) :
    gmap string (list nat) :=
  if bool_decide (key = "__proto__") then visited else <[key := []]> visited.

(** [visited[key].push(depth)]; for "__proto__" the array is the prototype. *)
Definition pushDepth (key : string) (depth : nat)
    (visited : gmap string (list nat)) : gmap string (list nat) :=
  if bool_decide (key = "__proto__") then visited
  else alter (fun depths => depths ++ [depth]) key visited.

(** One turn of the inner loop. *)
Definition createIndex_visit (activeFile : option TFile) (app : App)
    (settings : BreadcrumbsSettings) (st : IndexState) (depth : nat)
    (currNode : string) : option IndexState :=
  own ← hasOwnProperty (visited st) currNode;
  if own && includes (default [] (visited st !! currNode)) depth
  then Some st
  else
    let index := out st +:+ (repeatString indent depth +:+ "- ") in
    let index := index +:+ (if wikilinkIndex settings then "[[" else "") in
    let index := index +:+ currNode in
    let index := index +:+ (if wikilinkIndex settings then "]]" else "") in
    index ←
      (if aliasesInIndex settings then
         match activeFile with
         | None => None
         | Some _ =>
             let allAliases :=
               frontmatterAlias app currNode ++ frontmatterAliases app currNode in
             Some (if (0 <? length allAliases)%nat
                   then index +:+ (" (" +:+ join ", " allAliases +:+ ")")
                   else index)
         end
       else Some index);
    let index := index +:+ LF in
    own ← hasOwnProperty (visited st) currNode;
    let visited :=
      if own : bool then visited st else assignEmpty currNode (visited st) in
    let visited := pushDepth currNode depth visited in
    Some (mkIndex index visited).

Fixpoint createIndex_path (activeFile : option TFile) (app : App)
    (settings : BreadcrumbsSettings) (depth : nat) (path : list string)
    (st : IndexState) : option IndexState :=
  match path with
  | [] => Some st
  | currNode :: rest =>
      st ← createIndex_visit activeFile app settings st depth currNode;
      createIndex_path activeFile app settings (S depth) rest st
  end.

(** [reversed.forEach] *)
Fixpoint createIndex_paths (activeFile : option TFile) (app : App)
    (settings : BreadcrumbsSettings) (reversed : list (list string))
    (st : IndexState) : option IndexState :=
  match reversed with
  | [] => Some st
  | path :: rest =>
      st ← createIndex_path activeFile app settings 0 path st;
      createIndex_paths activeFile app settings rest st
  end.

Definition createIndex (activeFile : option TFile) (app : App) (index : string)
    (allPaths : list (list string)) (settings : BreadcrumbsSettings) :
    option string :=
  let copy := allPaths in
  let reversed := map (fun path => rev path) copy in
  let reversed := map (fun path => tail path) reversed in
  out <$> createIndex_paths activeFile app settings reversed (mkIndex index ∅).

(** The callback of the command "local-index", up to the clipboard; it
    starts from [getActiveFile().basename]. *)
Definition localIndex (activeFile : option TFile) (app : App) (closed : Graph)
    (settings : BreadcrumbsSettings) : option string :=
  match activeFile with
  | None => None
  | Some file =>
      let currFile := basename file in
      let allPaths := dfsAllPaths closed currFile in
      createIndex activeFile app (currFile +:+ LF) allPaths settings
  end.

(** The earlier [createIndex] reads [visited] in the same way; it looks up
    no aliases. *)
Module Earlier.

Definition createIndex_visit (settings : BreadcrumbsSettings) (st : IndexState)
    (depth : nat) (currNode : string) : option IndexState :=
  own ← hasOwnProperty (visited st) currNode;
  if own && includes (default [] (visited st !! currNode)) depth
  then Some st
  else
    let txt := out st +:+ (repeatString indent depth +:+ "- ") in
    let txt := txt +:+ (if wikilinkIndex settings then "[[" else "") in
    let txt := txt +:+ currNode in
    let txt := txt +:+ (if wikilinkIndex settings then "]]" else "") in
    let txt := txt +:+ LF in
    own ← hasOwnProperty (visited st) currNode;
    let visited :=
      if own : bool then visited st else assignEmpty currNode (visited st) in
    let visited := pushDepth currNode depth visited in
    Some (mkIndex txt visited).

Fixpoint createIndex_path (settings : BreadcrumbsSettings) (depth : nat)
    (path : list string) (st : IndexState) : option IndexState :=
  match path with
  | [] => Some st
  | currNode :: rest =>
      st ← createIndex_visit settings st depth currNode;
      createIndex_path settings (S depth) rest st
  end.

Fixpoint createIndex_paths (settings : BreadcrumbsSettings)
    (reversed : list (list string)) (st : IndexState) : option IndexState :=
  match reversed with
  | [] => Some st
  | path :: rest =>
      st ← createIndex_path settings 0 path st;
      createIndex_paths settings rest st
  end.

Definition createIndex (allPaths : list (list string)) (currFile : string)
    (settings : BreadcrumbsSettings) : option string :=
  let copy := allPaths in
  let reversed := map (fun path => rev path) copy in
  let reversed := map (fun path => tail path) reversed in
  let txt := currFile +:+ LF in
  out <$> createIndex_paths settings reversed (mkIndex txt ∅).

End Earlier.

End JS.

(** ** Invariants of the traversals used further on *)

(** All edges that leave [u] have been recorded. *)
Definition expanded (g : Graph) (entries : list AdjListItem) (u : string) : Prop :=
  forall m, m ∈ orEmpty (successors g u) -> mkAdj u m ∈ entries.

(** The partial paths in the queue and the finalised paths, as lists of
    nodes. *)
Definition pathsInFlight (st : PathsState) : list (list string) :=
  map (fun it => node it :: path it) (queue st) ++ pathsArr st.

(** The paths in flight are pairwise different and none continues another. *)
Definition pathsApart (st : PathsState) : Prop :=
  NoDup (pathsInFlight st)
  /\ forall x y, x ∈ pathsInFlight st -> y ∈ pathsInFlight st ->
                 x `suffix_of` y -> x = y.

(** ** [migrate_old_settings] *)

(** The settings types ([BreadcrumbsSettings], [OLD_BREADCRUMBS_SETTINGS],
    [Hierarchy]) are imported by the source, not declared in it.  The records
    below hold the fields the function reads and writes, under their names;
    the fields of an object that the function does not name are kept together
    in a field [.._rest].  Settings are loaded from a JSON file: a value the
    function copies without looking at it is a JSON value. *)
Module Migrate.

#[warnings="-register-all"]
Inductive Value : Type :=
  | VNull
  | VBool (b : bool)
  | VNum (n : Z)
  | VStr (s : string)
  | VArr (items : list Value)
  | VObj (fields : list (string * Value)).

Definition Rest : Type := list (string * Value).

(** *** The old settings *)

Record ImpliedRelations : Type := mkImpliedRelations {
  siblingIdentity : Value;
  cousinsIsSibling : Value;
  sameParentIsSibling : Value;
  siblingsSiblingIsSibling : Value;
  siblingsParentIsParent : Value;
  parentsSiblingsIsParents : Value
}.

(** [None] is [undefined]. *)
Record OLD_BREADCRUMBS_SETTINGS : Type := mkOld {
  userHiers : option (list Value);
  impliedRelations : option ImpliedRelations;
  tagNoteField : option Value;
  addDendronNotes : option Value;
  dendronNoteField : option Value;
  trimDendronNotes : option Value;
  dendronNoteDelimiter : option Value;
  addDateNotes : option Value;
  dateNoteField : option Value;
  dateNoteFormat : option Value;
  respectReadableLineLength : option Value;
  showGrid : option Value;
  noPathMessage : option Value;
  showPrevNext : option Value;
  showRefreshNotice : option Value;
  refreshOnNoteSave : option Value;
  refreshOnNoteChange : option Value;
  wikilinkIndex : option bool;
  aliasesInIndex : option Value;
  createIndexIndent : option Value;
  writeBCsInline : option bool
}.

(** *** The new settings *)

Record ImpliedRelationships : Type := mkImpliedRelationships {
  self_is_sibling : Value;
  cousin_is_sibling : Value;
  same_parent_is_sibling : Value;
  same_sibling_is_sibling : Value;
  siblings_parent_is_parent : Value;
  parents_sibling_is_parent : Value;
  implied_relationships_rest : Rest
}.

Record Hierarchy : Type := mkHierarchy {
  dirs : Value;
  implied_relationships : ImpliedRelationships
}.

Record TagNote : Type := mkTagNote {
  tag_note_default_field : Value;
  tag_note_rest : Rest
}.

Record DendronNote : Type := mkDendronNote {
  dendron_note_enabled : Value;
  dendron_note_default_field : Value;
  dendron_note_delimiter : Value;
  dendron_note_display_trimmed : Value
}.

Record DateNote : Type := mkDateNote {
  date_note_enabled : Value;
  date_note_default_field : Value;
  date_note_date_format : Value
}.

Record ExplicitEdgeSources : Type := mkExplicitEdgeSources {
  tag_note : TagNote;
  dendron_note : DendronNote;
  date_note : DateNote;
  explicit_edge_sources_rest : Rest
}.

Record PageAll : Type := mkPageAll {
  readable_line_width : Value;
  all_rest : Rest
}.

Record PageGrid : Type := mkPageGrid {
  grid_enabled : Value;
  no_path_message : Value;
  grid_rest : Rest
}.

Record PagePrevNext : Type := mkPagePrevNext {
  prev_next_enabled : Value;
  prev_next_rest : Rest
}.

Record Page : Type := mkPage {
  all : PageAll;
  grid : PageGrid;
  prev_next : PagePrevNext;
  page_rest : Rest
}.

Record Views : Type := mkViews {
  page : Page;
  views_rest : Rest
}.

Record Trigger : Type := mkTrigger {
  note_save : Value;
  layout_change : Value
}.

Record RebuildGraph : Type := mkRebuildGraph {
  notify : Value;
  trigger : Trigger;
  rebuild_graph_rest : Rest
}.

Record ShowNodeOptions : Type := mkShowNodeOptions {
  alias : Value;
  show_node_options_rest : Rest
}.

Record ListIndexOptions : Type := mkListIndexOptions {
  indent : Value;
  link_kind : string;
  show_node_options : ShowNodeOptions;
  list_index_options_rest : Rest
}.

Record ListIndexCommand : Type := mkListIndexCommand {
  list_index_default_options : ListIndexOptions;
  list_index_rest : Rest
}.

Record FreezeOptions : Type := mkFreezeOptions {
  destination : string;
  freeze_options_rest : Rest
}.

Record FreezeCommand : Type := mkFreezeCommand {
  freeze_default_options : FreezeOptions;
  freeze_rest : Rest
}.

Record Commands : Type := mkCommands {
  rebuild_graph : RebuildGraph;
  list_index : ListIndexCommand;
  freeze_implied_edges : FreezeCommand;
  commands_rest : Rest
}.

Record BreadcrumbsSettings : Type := mkSettings {
  hierarchies : list Hierarchy;
  explicit_edge_sources : ExplicitEdgeSources;
  views : Views;
  commands : Commands;
  settings_rest : Rest
}.

(** The two constants the function spreads into what it builds:
    [blank_hierarchy().implied_relationships] and
    [ListIndex.DEFAULT_OPTIONS.show_node_options]. *)
Record Defaults : Type := mkDefaults {
  blank_implied_relationships : ImpliedRelationships;
  DEFAULT_show_node_options : ShowNodeOptions
}.

(** *** Assignments to nested fields *)

Definition over_explicit_edge_sources (f : ExplicitEdgeSources -> ExplicitEdgeSources)
    (s : BreadcrumbsSettings) : BreadcrumbsSettings :=
  mkSettings (hierarchies s) (f (explicit_edge_sources s)) (views s) (commands s)
    (settings_rest s).

Definition over_page (f : Page -> Page) (s : BreadcrumbsSettings) :
    BreadcrumbsSettings :=
  mkSettings (hierarchies s) (explicit_edge_sources s)
    (mkViews (f (page (views s))) (views_rest (views s)))
    (commands s) (settings_rest s).

Definition over_commands (f : Commands -> Commands) (s : BreadcrumbsSettings) :
    BreadcrumbsSettings :=
  mkSettings (hierarchies s) (explicit_edge_sources s) (views s) (f (commands s))
    (settings_rest s).

(** *** The sections of the function *)

(** SECTION: Hierarchies.  Every new hierarchy refers to the one
    [implied_relationships] object built here. *)
Definition migrate_hierarchies (defaults : Defaults) (old : OLD_BREADCRUMBS_SETTINGS)
    (s : BreadcrumbsSettings) : BreadcrumbsSettings :=
  match userHiers old, impliedRelations old with
  | Some hiers, Some relations =>
      let blank := blank_implied_relationships defaults in
      let implied :=
        mkImpliedRelationships
          (siblingIdentity relations)
          (cousinsIsSibling relations)
          (sameParentIsSibling relations)
          (siblingsSiblingIsSibling relations)
          (siblingsParentIsParent relations)
          (parentsSiblingsIsParents relations)
          (implied_relationships_rest blank) in
      mkSettings
        (map (fun hierarchy => mkHierarchy hierarchy implied) hiers)
        (explicit_edge_sources s) (views s) (commands s) (settings_rest s)
  | _, _ => s
  end.

(** Tag note *)
Definition migrate_tag_note (old : OLD_BREADCRUMBS_SETTINGS)
    (s : BreadcrumbsSettings) : BreadcrumbsSettings :=
  match tagNoteField old with
  | Some field =>
      over_explicit_edge_sources
        (fun e =>
           mkExplicitEdgeSources
             (mkTagNote field (tag_note_rest (tag_note e)))
             (dendron_note e) (date_note e) (explicit_edge_sources_rest e))
        s
  | None => s
  end.

(** Dendron *)
Definition migrate_dendron_note (old : OLD_BREADCRUMBS_SETTINGS)
    (s : BreadcrumbsSettings) : BreadcrumbsSettings :=
  match addDendronNotes old, dendronNoteField old, trimDendronNotes old,
        dendronNoteDelimiter old with
  | Some add, Some field, Some trim, Some delimiter =>
      over_explicit_edge_sources
        (fun e =>
           mkExplicitEdgeSources (tag_note e)
             (mkDendronNote add field delimiter trim)
             (date_note e) (explicit_edge_sources_rest e))
        s
  | _, _, _, _ => s
  end.

(** Date notes *)
Definition migrate_date_note (old : OLD_BREADCRUMBS_SETTINGS)
    (s : BreadcrumbsSettings) : BreadcrumbsSettings :=
  match addDateNotes old, dateNoteField old, dateNoteFormat old with
  | Some add, Some field, Some format =>
      over_explicit_edge_sources
        (fun e =>
           mkExplicitEdgeSources (tag_note e) (dendron_note e)
             (mkDateNote add field format) (explicit_edge_sources_rest e))
        s
  | _, _, _ => s
  end.

(** Page *)
Definition migrate_readable_line_width (old : OLD_BREADCRUMBS_SETTINGS)
    (s : BreadcrumbsSettings) : BreadcrumbsSettings :=
  match respectReadableLineLength old with
  | Some respect =>
      over_page
        (fun p =>
           mkPage (mkPageAll respect (all_rest (all p)))
             (grid p) (prev_next p) (page_rest p))
        s
  | None => s
  end.

(** Grid *)
Definition migrate_grid_enabled (old : OLD_BREADCRUMBS_SETTINGS)
    (s : BreadcrumbsSettings) : BreadcrumbsSettings :=
  match showGrid old with
  | Some show =>
      over_page
        (fun p =>
           mkPage (all p)
             (mkPageGrid show (no_path_message (grid p)) (grid_rest (grid p)))
             (prev_next p) (page_rest p))
        s
  | None => s
  end.

Definition migrate_no_path_message (old : OLD_BREADCRUMBS_SETTINGS)
    (s : BreadcrumbsSettings) : BreadcrumbsSettings :=
  match noPathMessage old with
  | Some message =>
      over_page
        (fun p =>
           mkPage (all p)
             (mkPageGrid (grid_enabled (grid p)) message (grid_rest (grid p)))
             (prev_next p) (page_rest p))
        s
  | None => s
  end.

(** Prev/Next *)
Definition migrate_prev_next (old : OLD_BREADCRUMBS_SETTINGS)
    (s : BreadcrumbsSettings) : BreadcrumbsSettings :=
  match showPrevNext old with
  | Some show =>
      over_page
        (fun p =>
           mkPage (all p) (grid p)
             (mkPagePrevNext show (prev_next_rest (prev_next p)))
             (page_rest p))
        s
  | None => s
  end.

(** Rebuild Graph *)
Definition migrate_rebuild_graph (old : OLD_BREADCRUMBS_SETTINGS)
    (s : BreadcrumbsSettings) : BreadcrumbsSettings :=
  match showRefreshNotice old, refreshOnNoteSave old, refreshOnNoteChange old with
  | Some notice, Some on_save, Some on_change =>
      over_commands
        (fun c =>
           mkCommands
             (mkRebuildGraph notice (mkTrigger on_save on_change)
                (rebuild_graph_rest (rebuild_graph c)))
             (list_index c) (freeze_implied_edges c) (commands_rest c))
        s
  | _, _, _ => s
  end.

(** List Index *)
Definition migrate_list_index (defaults : Defaults) (old : OLD_BREADCRUMBS_SETTINGS)
    (s : BreadcrumbsSettings) : BreadcrumbsSettings :=
  match wikilinkIndex old, aliasesInIndex old, createIndexIndent old with
  | Some wikilink, Some aliases, Some index_indent =>
      over_commands
        (fun c =>
           let current := list_index_default_options (list_index c) in
           mkCommands (rebuild_graph c)
             (mkListIndexCommand
                (mkListIndexOptions
                   index_indent
                   (if wikilink then "wiki" else "none")
                   (mkShowNodeOptions aliases
                      (show_node_options_rest (DEFAULT_show_node_options defaults)))
                   (list_index_options_rest current))
                (list_index_rest (list_index c)))
             (freeze_implied_edges c) (commands_rest c))
        s
  | _, _, _ => s
  end.

(** Freeze implied edges *)
Definition migrate_freeze_implied_edges (old : OLD_BREADCRUMBS_SETTINGS)
    (s : BreadcrumbsSettings) : BreadcrumbsSettings :=
  match writeBCsInline old with
  | Some inline =>
      over_commands
        (fun c =>
           let f := freeze_implied_edges c in
           mkCommands (rebuild_graph c) (list_index c)
             (mkFreezeCommand
                (mkFreezeOptions
                   (if inline then "dataview-inline" else "frontmatter")
                   (freeze_options_rest (freeze_default_options f)))
                (freeze_rest f))
             (commands_rest c))
        s
  | None => s
  end.

(** The sections in the order of the source, as a list. *)
Definition sections (defaults : Defaults) (old : OLD_BREADCRUMBS_SETTINGS) :
    list (BreadcrumbsSettings -> BreadcrumbsSettings) :=
  [ migrate_hierarchies defaults old;
    migrate_tag_note old;
    migrate_dendron_note old;
    migrate_date_note old;
    migrate_readable_line_width old;
    migrate_grid_enabled old;
    migrate_no_path_message old;
    migrate_prev_next old;
    migrate_rebuild_graph old;
    migrate_list_index defaults old;
    migrate_freeze_implied_edges old ].

(** The settings the function saves: the old fields stay as they are (the
    [delete] lines are commented out), the new ones are assigned section by
    section. *)
Definition migrate_old_settings (defaults : Defaults)
    (old : OLD_BREADCRUMBS_SETTINGS) (s : BreadcrumbsSettings) :
    BreadcrumbsSettings :=
  let s := migrate_hierarchies defaults old s in
  let s := migrate_tag_note old s in
  let s := migrate_dendron_note old s in
  let s := migrate_date_note old s in
  let s := migrate_readable_line_width old s in
  let s := migrate_grid_enabled old s in
  let s := migrate_no_path_message old s in
  let s := migrate_prev_next old s in
  let s := migrate_rebuild_graph old s in
  let s := migrate_list_index defaults old s in
  let s := migrate_freeze_implied_edges old s in
  s.

End Migrate.

(** * Properties *)

(** ** The two loops *)

Lemma dfsAllPaths_loop_eq bound g st :
  dfsAllPaths_loop bound g st =
  match queue st with
  | currPath :: rest =>
      if decide (i st < bound)
      then dfsAllPaths_loop bound g (dfsAllPaths_body g st currPath rest)
      else st
  | [] => st
  end.
Proof.
  rewrite dfsAllPaths_loop_equation_1.
  unfold dfsAllPaths_loop_unfold_clause_1, dfsAllPaths_loop_unfold_clause_1_clause_1.
  destruct (queue st), (decide (i st < bound)); reflexivity.
Qed.

(** Induction along the iterations of the loop: [P st st'] relates a state to
    the state in which the loop started from it stops. *)
Lemma dfsAllPaths_loop_ind bound g (P : PathsState -> PathsState -> Prop) :
  (forall st, queue st = [] \/ bound <= i st -> P st st) ->
  (forall st c rest st',
      queue st = c :: rest -> i st < bound ->
      P (dfsAllPaths_body g st c rest) st' -> P st st') ->
  forall st, P st (dfsAllPaths_loop bound g st).
Proof.
  intros Hstop Hstep st.
  remember (bound - i st) as n eqn:Hn. revert st Hn.
  induction n as [n IH] using lt_wf_ind. intros st Hn.
  rewrite dfsAllPaths_loop_eq.
  destruct (queue st) as [|c rest] eqn:Hq.
  - apply Hstop. by left.
  - destruct (decide (i st < bound)) as [Hlt|Hge].
    + apply (Hstep st c rest); [done..|].
      apply (IH (bound - S (i st))); [lia|reflexivity].
    + apply Hstop. right. lia.
Qed.

Lemma dfsAllPaths_loop_inv bound g (Inv : PathsState -> Prop) :
  (forall st c rest,
      Inv st -> queue st = c :: rest -> i st < bound ->
      Inv (dfsAllPaths_body g st c rest)) ->
  forall st, Inv st -> Inv (dfsAllPaths_loop bound g st).
Proof.
  intros Hstep st.
  apply (dfsAllPaths_loop_ind bound g (fun st st' => Inv st -> Inv st')); eauto.
Qed.

Lemma dfsAllPaths_loop_exit bound g st :
  let st' := dfsAllPaths_loop bound g st in
  queue st' = [] \/ bound <= i st'.
Proof.
  apply (dfsAllPaths_loop_ind bound g
           (fun _ st' => queue st' = [] \/ bound <= i st')); eauto.
Qed.

Lemma dfsAllPaths_loop_count bound g st :
  exists k, dfsAllPaths_loop bound g st = Nat.iter k (dfsAllPaths_iter g) st
            /\ i (dfsAllPaths_loop bound g st) = i st + k.
Proof.
  apply (dfsAllPaths_loop_ind bound g
           (fun st st' => exists k, st' = Nat.iter k (dfsAllPaths_iter g) st
                                    /\ i st' = i st + k)).
  - intros st0 _. exists 0. split; [reflexivity|lia].
  - intros st0 c rest st' Hq Hlt [k [Hk Hi]]. exists (S k). split.
    + rewrite Nat.iter_succ_r. unfold dfsAllPaths_iter at 2. by rewrite Hq.
    + rewrite Hi. simpl. lia.
Qed.

Lemma dfsAllPaths_loop_bounded bound g st :
  i st <= bound -> i (dfsAllPaths_loop bound g st) <= bound.
Proof.
  apply (dfsAllPaths_loop_inv bound g (fun st => i st <= bound)).
  intros st0 c rest _ _ Hlt. simpl. lia.
Qed.

Lemma dfsAllPaths_loop_at_bound bound g st :
  bound <= i st -> dfsAllPaths_loop bound g st = st.
Proof.
  intros Hge. rewrite dfsAllPaths_loop_eq.
  destruct (queue st); [done|]. destruct (decide (i st < bound)); [lia|done].
Qed.

Lemma dfsAdjList_loop_eq bound g st :
  dfsAdjList_loop bound g st =
  match nodeQueue st with
  | currNode :: rest =>
      if decide (adjI st < bound)
      then dfsAdjList_loop bound g (dfsAdjList_body g st currNode rest)
      else st
  | [] => st
  end.
Proof.
  rewrite dfsAdjList_loop_equation_1.
  unfold dfsAdjList_loop_unfold_clause_1, dfsAdjList_loop_unfold_clause_1_clause_1.
  destruct (nodeQueue st), (decide (adjI st < bound)); reflexivity.
Qed.

Lemma dfsAdjList_loop_ind bound g (P : AdjState -> AdjState -> Prop) :
  (forall st, nodeQueue st = [] \/ bound <= adjI st -> P st st) ->
  (forall st c rest st',
      nodeQueue st = c :: rest -> adjI st < bound ->
      P (dfsAdjList_body g st c rest) st' -> P st st') ->
  forall st, P st (dfsAdjList_loop bound g st).
Proof.
  intros Hstop Hstep st.
  remember (bound - adjI st) as n eqn:Hn. revert st Hn.
  induction n as [n IH] using lt_wf_ind. intros st Hn.
  rewrite dfsAdjList_loop_eq.
  destruct (nodeQueue st) as [|c rest] eqn:Hq.
  - apply Hstop. by left.
  - destruct (decide (adjI st < bound)) as [Hlt|Hge].
    + apply (Hstep st c rest); [done..|].
      apply (IH (bound - S (adjI st))); [lia|reflexivity].
    + apply Hstop. right. lia.
Qed.

Lemma dfsAdjList_loop_count bound g st :
  exists k, dfsAdjList_loop bound g st = Nat.iter k (dfsAdjList_iter g) st
            /\ adjI (dfsAdjList_loop bound g st) = adjI st + k.
Proof.
  apply (dfsAdjList_loop_ind bound g
           (fun st st' => exists k, st' = Nat.iter k (dfsAdjList_iter g) st
                                    /\ adjI st' = adjI st + k)).
  - intros st0 _. exists 0. split; [reflexivity|lia].
  - intros st0 c rest st' Hq Hlt [k [Hk Hi]]. exists (S k). split.
    + rewrite Nat.iter_succ_r. unfold dfsAdjList_iter at 2. by rewrite Hq.
    + rewrite Hi. simpl. lia.
Qed.

Lemma dfsAdjList_loop_exit bound g st :
  let st' := dfsAdjList_loop bound g st in
  nodeQueue st' = [] \/ bound <= adjI st'.
Proof.
  apply (dfsAdjList_loop_ind bound g
           (fun _ st' => nodeQueue st' = [] \/ bound <= adjI st')); eauto.
Qed.

Lemma dfsAdjList_loop_at_bound bound g st :
  bound <= adjI st -> dfsAdjList_loop bound g st = st.
Proof.
  intros Hge. rewrite dfsAdjList_loop_eq.
  destruct (nodeQueue st); [done|]. destruct (decide (adjI st < bound)); [lia|done].
Qed.

(** C1. Both traversals return for every graph and start node, after at most
    1000 turns of their loop (each turn pops the queue once and increments the
    counter once); they stop because the queue is empty or because the
    counter is at 1000, and at 1000 they stop whatever the queue holds.  On
    the cycle A -> B -> A and on the loop C -> C both stop at 1000 with work
    left in the queue. *)
Theorem traversals_stop_within_bound :
  (forall g startNode,
      exists k, k <= 1000
        /\ dfsAllPaths_run g startNode
           = Nat.iter k (dfsAllPaths_iter g) (dfsAllPaths_init startNode)
        /\ i (dfsAllPaths_run g startNode) = k
        /\ (queue (dfsAllPaths_run g startNode) = [] \/ k = 1000))
  /\ (forall g startNode,
      exists k, k <= 1000
        /\ dfsAdjList_run g startNode
           = Nat.iter k (dfsAdjList_iter g) (dfsAdjList_init startNode)
        /\ adjI (dfsAdjList_run g startNode) = k
        /\ (nodeQueue (dfsAdjList_run g startNode) = [] \/ k = 1000))
  /\ (forall g q paths, dfsAllPaths_loop 1000 g (mkPaths q paths 1000) = mkPaths q paths 1000)
  /\ (forall g q entries, dfsAdjList_loop 1000 g (mkAdjState q entries 1000) = mkAdjState q entries 1000)
  /\ (i (dfsAllPaths_run cycleGraph "A") = 1000
      /\ queue (dfsAllPaths_run cycleGraph "A") <> [])
  /\ (adjI (dfsAdjList_run cycleGraph "A") = 1000
      /\ nodeQueue (dfsAdjList_run cycleGraph "A") <> [])
  /\ (i (dfsAllPaths_run loopingGraph "C") = 1000
      /\ queue (dfsAllPaths_run loopingGraph "C") <> []
      /\ adjI (dfsAdjList_run loopingGraph "C") = 1000
      /\ nodeQueue (dfsAdjList_run loopingGraph "C") <> []).
Proof.
  split; [|split; [|split; [|split; [|split; [|split]]]]].
  - intros g s. unfold dfsAllPaths_run.
    destruct (dfsAllPaths_loop_count 1000 g (dfsAllPaths_init s)) as [k [Hk Hi]].
    pose proof (dfsAllPaths_loop_exit 1000 g (dfsAllPaths_init s)) as Hexit.
    pose proof (dfsAllPaths_loop_bounded 1000 g (dfsAllPaths_init s)) as Hle.
    simpl in *. exists k. repeat split; [lia|done|lia|].
    destruct Hexit as [?|?]; [by left|right; lia].
  - intros g s. unfold dfsAdjList_run.
    destruct (dfsAdjList_loop_count 1000 g (dfsAdjList_init s)) as [k [Hk Hi]].
    pose proof (dfsAdjList_loop_exit 1000 g (dfsAdjList_init s)) as Hexit.
    assert (adjI (dfsAdjList_loop 1000 g (dfsAdjList_init s)) <= 1000) as Hle.
    { apply (dfsAdjList_loop_ind 1000 g (fun st st' => adjI st <= 1000 -> adjI st' <= 1000));
        [done| |simpl; lia].
      intros st c rest st' _ Hlt IH _. apply IH. simpl. lia. }
    simpl in *. exists k. repeat split; [lia|done|lia|].
    destruct Hexit as [?|?]; [by left|right; lia].
  - intros. by apply dfsAllPaths_loop_at_bound.
  - intros. by apply dfsAdjList_loop_at_bound.
  - vm_compute. split; [reflexivity|discriminate].
  - vm_compute. split; [reflexivity|discriminate].
  - vm_compute. repeat split; discriminate.
Qed.

(** ** Walks *)

Lemma walk_snoc g s v t w :
  walk g s v w -> t ∈ orEmpty (successors g v) -> walk g s t (w ++ [t]).
Proof.
  induction 1 as [v|v m t' w Hm Hw IH]; intros Ht; simpl.
  - apply walk_step with t; [done|constructor].
  - apply walk_step with m; [done|by apply IH].
Qed.

Lemma walk_head g s t w : walk g s t w -> head w = Some s.
Proof. by destruct 1. Qed.

Lemma walk_last g s t w : walk g s t w -> last w = Some t.
Proof.
  induction 1 as [v|v m t w Hm Hw IH]; [done|].
  destruct w; [inversion Hw|done].
Qed.

Lemma head_rev {A} (l : list A) : head (rev l) = last l.
Proof.
  induction l as [|x l IH]; [done|].
  simpl. by rewrite head_snoc, IH, last_cons.
Qed.

Lemma last_rev {A} (l : list A) : last (rev l) = head l.
Proof. destruct l as [|x l]; [done|]. simpl. apply last_snoc. Qed.

(** ** What [dfsAllPaths] finalises *)

Lemma dfsAllPaths_body_sound g s st c rest :
  pathsSound g s st -> queue st = c :: rest ->
  pathsSound g s (dfsAllPaths_body g st c rest).
Proof.
  intros [Hq Hp] Hst. rewrite Hst in Hq.
  assert (walk g s (node c) (rev (node c :: path c))) as Hc
    by (apply Hq; left).
  split; simpl.
  - intros it [Hit|Hit]%elem_of_app.
    + apply list_elem_of_fmap in Hit as [n [-> Hn]]. simpl.
      by apply walk_snoc with (node c).
    + apply Hq. by right.
  - destruct (orEmpty (successors g (node c))) as [|n ns] eqn:Hs; simpl; [|done].
    intros p [Hin|Hin]%elem_of_app; [by apply Hp|].
    apply list_elem_of_singleton in Hin as ->. by exists (node c).
Qed.

Lemma dfsAllPaths_sound g s : pathsSound g s (dfsAllPaths_run g s).
Proof.
  unfold dfsAllPaths_run.
  apply (dfsAllPaths_loop_inv 1000 g (pathsSound g s)).
  - intros st c rest Hinv Hq _. by apply dfsAllPaths_body_sound.
  - split; simpl.
    + intros it ->%list_elem_of_singleton. constructor.
    + intros p Hp. by apply elem_of_nil in Hp.
Qed.

Lemma dfsAllPaths_of_sink g s : isSink g s -> dfsAllPaths g s = [[s]].
Proof.
  intros Hs. unfold dfsAllPaths, dfsAllPaths_run, dfsAllPaths_init.
  rewrite dfsAllPaths_loop_eq. simpl.
  unfold dfsAllPaths_body. simpl. rewrite Hs. simpl.
  by rewrite dfsAllPaths_loop_eq.
Qed.

(** C2, as the code has it.  Every path returned by [dfsAllPaths] is stored
    sink first: read backwards it is a walk of the graph that starts at the
    start node and ends at a sink.  For the children graph Root -> Mid -> Leaf
    the result from Root is the single path [Leaf, Mid, Root]. *)
Theorem dfsAllPaths_paths_are_reversed_walks :
  (forall g s p,
      p ∈ dfsAllPaths g s -> exists t, walk g s t (rev p) /\ isSink g t)
  /\ dfsAllPaths childrenGraph "Root" = [["Leaf"; "Mid"; "Root"]].
Proof.
  split.
  - intros g s p Hp. by apply (dfsAllPaths_sound g s).
  - vm_compute. reflexivity.
Qed.

Lemma dfsAllPaths_paths_are_reversed_walks_witness :
  exists t, walk childrenGraph "Root" t (rev ["Leaf"; "Mid"; "Root"])
            /\ isSink childrenGraph t.
Proof.
  apply (proj1 dfsAllPaths_paths_are_reversed_walks childrenGraph "Root").
  vm_compute. left.
Defined.

(** C2, as the spec words it, fails on the children graph: the returned list
    is not [[Root, Mid, Leaf]], and its path neither starts at the start node
    nor ends at a sink. *)
Lemma dfsAllPaths_children_not_start_first :
  dfsAllPaths childrenGraph "Root" <> [["Root"; "Mid"; "Leaf"]]
  /\ exists p, p ∈ dfsAllPaths childrenGraph "Root"
               /\ head p <> Some "Root"
               /\ ~ (exists t, last p = Some t /\ isSink childrenGraph t).
Proof.
  split; [vm_compute; discriminate|].
  exists ["Leaf"; "Mid"; "Root"]. split; [vm_compute; left|].
  split; [discriminate|].
  intros [t [Ht Hsink]]. injection Ht as <-. vm_compute in Hsink. discriminate.
Qed.

(** C10. Every path returned by [dfsAllPaths g s] has [s] as its last element
    and a node without successors as its first; when [s] has no successors,
    be it a node of the graph or not, the result is the single path [[s]]. *)
Theorem dfsAllPaths_start_last_sink_first (g : Graph) (s : string) :
  (forall p, p ∈ dfsAllPaths g s ->
             last p = Some s
             /\ exists t, head p = Some t /\ orEmpty (successors g t) = [])
  /\ (orEmpty (successors g s) = [] -> dfsAllPaths g s = [[s]])
  /\ (successors g s = None -> dfsAllPaths g s = [[s]]).
Proof.
  split; [|split].
  - intros p Hp.
    destruct (proj2 (dfsAllPaths_sound g s) p Hp) as [t [Hw Ht]].
    split.
    + rewrite <- (rev_involutive p), last_rev. by eapply walk_head.
    + exists t. split; [|done].
      rewrite <- (rev_involutive p), head_rev. by eapply walk_last.
  - apply dfsAllPaths_of_sink.
  - intros Hnone. apply dfsAllPaths_of_sink. unfold isSink. by rewrite Hnone.
Qed.

Lemma dfsAllPaths_start_last_sink_first_witness :
  (last ["Leaf"; "Mid"; "Root"] = Some "Root"
   /\ exists t, head ["Leaf"; "Mid"; "Root"] = Some t
                /\ orEmpty (successors childrenGraph t) = [])
  /\ dfsAllPaths childrenGraph "Leaf" = [["Leaf"]]
  /\ dfsAllPaths childrenGraph "Elsewhere" = [["Elsewhere"]].
Proof.
  split; [|split].
  - apply (proj1 (dfsAllPaths_start_last_sink_first childrenGraph "Root")).
    vm_compute. left.
  - apply (proj1 (proj2 (dfsAllPaths_start_last_sink_first childrenGraph "Leaf"))).
    vm_compute. reflexivity.
  - apply (proj2 (proj2 (dfsAllPaths_start_last_sink_first childrenGraph "Elsewhere"))).
    vm_compute. reflexivity.
Defined.

(** ** The two-node cycle *)

Lemma cycleGraph_successors n :
  n = "A" \/ n = "B" ->
  exists m, orEmpty (successors cycleGraph n) = [m] /\ (m = "A" \/ m = "B").
Proof.
  intros [-> | ->]; [exists "B"|exists "A"]; (split; [vm_compute; reflexivity|auto]).
Qed.

Lemma cycleInv_loop bound st :
  cycleInv bound st -> cycleInv bound (dfsAllPaths_loop bound cycleGraph st).
Proof.
  apply dfsAllPaths_loop_inv. clear st.
  intros st c rest (Hp & Hi & n & path & Hq & Hn) Hq' Hlt.
  rewrite Hq in Hq'. injection Hq' as <- <-.
  destruct (cycleGraph_successors n Hn) as (m & Hm & Hm').
  unfold cycleInv, dfsAllPaths_body. simpl. rewrite Hm. simpl.
  split; [done|]. split; [lia|]. eauto.
Qed.

(** C4, as the code has it.  On the cycle A -> B -> A the traversal from A
    stops when the budget is used up, whatever the budget: the counter equals
    the bound, one partial path is still queued, and no path has been
    finalised because the cycle has no sink.  With the bound of the source
    the result is the empty list after 1000 iterations. *)
Theorem dfsAllPaths_cycle_uses_budget :
  (forall bound,
      let st := dfsAllPaths_loop bound cycleGraph (dfsAllPaths_init "A") in
      i st = bound /\ length (queue st) = 1 /\ pathsArr st = [])
  /\ dfsAllPaths cycleGraph "A" = []
  /\ i (dfsAllPaths_run cycleGraph "A") = 1000.
Proof.
  assert (forall bound,
      let st := dfsAllPaths_loop bound cycleGraph (dfsAllPaths_init "A") in
      i st = bound /\ length (queue st) = 1 /\ pathsArr st = []) as Hall.
  { intros bound st.
    assert (cycleInv bound st) as (Hp & Hi & n & path & Hq & _).
    { apply cycleInv_loop. unfold cycleInv. simpl.
      split; [done|]. split; [lia|]. eauto. }
    pose proof (dfsAllPaths_loop_exit bound cycleGraph (dfsAllPaths_init "A")) as Hexit.
    fold st in Hexit. simpl in Hexit. rewrite Hq in *.
    split; [|done]. destruct Hexit as [?|?]; [done|lia]. }
  split; [exact Hall|].
  destruct (Hall 1000) as (Hi & _ & Hp). by split.
Qed.

(** C4, as the spec words it, fails: the collection returned on the cycle is
    empty. *)
Lemma dfsAllPaths_cycle_returns_nothing :
  ~ (dfsAllPaths cycleGraph "A" <> []).
Proof. intros H. apply H. vm_compute. reflexivity. Qed.

(** ** [removeDuplicateImplied] and the squares *)

Lemma includes_true {A} `{EqDecision A} (arr : list A) (x : A) :
  includes arr x = true <-> x ∈ arr.
Proof. unfold includes. apply bool_decide_eq_true. Qed.

Lemma removeDuplicateImplied_filter reals implieds :
  removeDuplicateImplied reals implieds
  = filter (fun implied => to implied ∉ map to reals) implieds.
Proof.
  unfold removeDuplicateImplied. apply list_filter_iff. intros x.
  rewrite negb_True. unfold includes. by rewrite bool_decide_spec.
Qed.

Lemma removeDuplicateImplied_elem reals implieds x :
  x ∈ removeDuplicateImplied reals implieds
  <-> x ∈ implieds /\ to x ∉ map to reals.
Proof.
  rewrite removeDuplicateImplied_filter, list_elem_of_filter. tauto.
Qed.

Lemma removeDuplicateImplied_disjoint reals implieds t :
  t ∈ map to reals -> t ∉ map to (removeDuplicateImplied reals implieds).
Proof.
  intros Hreal [x [-> Hx]]%list_elem_of_fmap.
  apply removeDuplicateImplied_elem in Hx as [_ Hx]. by apply Hx.
Qed.

(** C8. [removeDuplicateImplied] returns exactly the implied entries whose
    target is not the target of a real entry, in their order; hence in each
    of the three squares assembled by [draw], for every note and all graphs,
    no target is listed both among the real and among the implied items. *)
Theorem real_and_implied_targets_disjoint :
  (forall reals implieds,
      removeDuplicateImplied reals implieds
      = filter (fun implied => to implied ∉ map to reals) implieds)
  /\ (forall reals implieds x,
      x ∈ removeDuplicateImplied reals implieds
      <-> x ∈ implieds /\ to x ∉ map to reals)
  /\ (forall app settings gParents gSiblings gChildren currFile square t,
      let squares := draw_squares app settings gParents gSiblings gChildren currFile in
      square ∈ [parentsSquare squares; siblingSquare squares; childrenSquare squares] ->
      t ∈ map to (realItems square) ->
      t ∉ map to (impliedItems square)).
Proof.
  split; [exact removeDuplicateImplied_filter|].
  split; [exact removeDuplicateImplied_elem|].
  intros app settings gParents gSiblings gChildren currFile square t squares Hsq.
  repeat (apply elem_of_cons in Hsq as [->|Hsq]);
    [..|by apply elem_of_nil in Hsq];
    apply removeDuplicateImplied_disjoint.
Qed.

Lemma real_and_implied_targets_disjoint_witness :
  let squares :=
    draw_squares plainApp plainSettings
      parentsOfChild emptyGraph childrenOfParents (mkFile "Child" "Child.md") in
  map to (realItems (parentsSquare squares)) = ["ParentA"; "ParentB"]
  /\ map to (impliedItems (parentsSquare squares)) = ["ParentC"]
  /\ "ParentA" ∉ map to (impliedItems (parentsSquare squares)).
Proof.
  intros squares. split; [vm_compute; reflexivity|].
  split; [vm_compute; reflexivity|].
  apply (proj2 (proj2 real_and_implied_targets_disjoint)
           plainApp plainSettings
           parentsOfChild emptyGraph childrenOfParents (mkFile "Child" "Child.md")
           (parentsSquare squares) "ParentA").
  - left.
  - vm_compute. left.
Defined.

(** ** Keeping first occurrences *)

Section KeepFirstSeen.
Context {A : Type} `{EqDecision A}.
Implicit Types (seen l : list A) (x : A).

Lemma keepFirstSeen_elem seen l x :
  x ∈ keepFirstSeen seen l <-> x ∈ l /\ x ∉ seen.
Proof.
  revert seen. induction l as [|y l IH]; intros seen; simpl.
  - split; [by intros ?%elem_of_nil|by intros [?%elem_of_nil _]].
  - case_bool_decide as Hy.
    + rewrite IH, elem_of_cons. split; [tauto|].
      intros [[->|?] ?]; tauto.
    + rewrite !elem_of_cons, IH, elem_of_app, list_elem_of_singleton.
      split.
      * intros [->|[? ?]]; [tauto|]. split; [tauto|]. intros ?. tauto.
      * intros [[->|?] ?]; [tauto|].
        destruct (decide (x = y)) as [->|?]; [tauto|]. right. tauto.
Qed.

Lemma keepFirstSeen_NoDup seen l : NoDup (keepFirstSeen seen l).
Proof.
  revert seen. induction l as [|y l IH]; intros seen; simpl.
  - constructor.
  - case_bool_decide; [apply IH|].
    constructor; [|apply IH].
    rewrite keepFirstSeen_elem, elem_of_app, list_elem_of_singleton. tauto.
Qed.

Lemma keepFirstSeen_sublist seen l : keepFirstSeen seen l `sublist_of` l.
Proof.
  revert seen. induction l as [|y l IH]; intros seen; simpl; [done|].
  case_bool_decide; [apply sublist_cons|apply sublist_skip]; apply IH.
Qed.

Lemma keepFirstSeen_app seen l1 l2 :
  keepFirstSeen seen (l1 ++ l2)
  = keepFirstSeen seen l1 ++ keepFirstSeen (seen ++ keepFirstSeen seen l1) l2.
Proof.
  revert seen. induction l1 as [|y l1 IH]; intros seen; simpl.
  - by rewrite app_nil_r.
  - case_bool_decide; [apply IH|].
    rewrite IH. simpl. by rewrite <- app_assoc.
Qed.

Lemma keepFirstSeen_ext seen1 seen2 l :
  (forall x, x ∈ seen1 <-> x ∈ seen2) ->
  keepFirstSeen seen1 l = keepFirstSeen seen2 l.
Proof.
  revert seen1 seen2. induction l as [|y l IH]; intros seen1 seen2 Hseen; simpl; [done|].
  rewrite (bool_decide_ext _ _ (Hseen y)).
  case_bool_decide; [by apply IH|].
  f_equal. apply IH. intros x. rewrite !elem_of_app. by rewrite Hseen.
Qed.

End KeepFirstSeen.

(** ** [createIndex] *)

Lemma string_app_assoc (s1 s2 s3 : string) :
  (s1 +:+ s2) +:+ s3 = s1 +:+ (s2 +:+ s3).
Proof.
  induction s1 as [|c s1 IH]; [done|].
  change (String c ((s1 +:+ s2) +:+ s3) = String c (s1 +:+ (s2 +:+ s3))).
  by rewrite IH.
Qed.

Lemma string_app_nil_r (s : string) : s +:+ "" = s.
Proof.
  induction s as [|c s IH]; [done|].
  change (String c (s +:+ "") = String c s). by rewrite IH.
Qed.

Lemma string_app_nil_l (s : string) : "" +:+ s = s.
Proof. reflexivity. Qed.

Lemma concatLines_app l1 l2 :
  concatLines (l1 ++ l2) = concatLines l1 +:+ concatLines l2.
Proof.
  induction l1 as [|x l1 IH]; [done|].
  change (x +:+ concatLines (l1 ++ l2) = (x +:+ concatLines l1) +:+ concatLines l2).
  by rewrite IH, string_app_assoc.
Qed.

Lemma createIndex_render_out app settings st depth currNode :
  out (createIndex_render app settings st depth currNode)
  = out st +:+ outlineLine app settings (currNode, depth).
Proof.
  unfold createIndex_render, outlineLine. simpl.
  destruct (aliasesInIndex settings); simpl;
    [destruct (0 <? length _); simpl|];
    by rewrite ?string_app_nil_l, !string_app_assoc.
Qed.

Lemma visitedAt_true visited currNode depth :
  visitedAt visited currNode depth = true
  <-> exists depths, visited !! currNode = Some depths /\ depth ∈ depths.
Proof.
  unfold visitedAt. destruct (visited !! currNode) as [depths|].
  - rewrite includes_true. split; [eauto|]. by intros [? [[= <-] ?]].
  - split; [done|]. by intros [? [? _]].
Qed.

Lemma createIndex_render_visited app settings st depth currNode n d :
  visitedAt (visited (createIndex_render app settings st depth currNode)) n d = true
  <-> visitedAt (visited st) n d = true \/ (n = currNode /\ d = depth).
Proof.
  rewrite !visitedAt_true. unfold createIndex_render. simpl.
  destruct (decide (n = currNode)) as [->|Hne].
  - rewrite lookup_alter_eq.
    destruct (visited st !! currNode) as [depths|] eqn:Hv.
    + rewrite Hv. simpl. split.
      * intros [ds [[= <-] [Hd|Hd]%elem_of_app]]; [eauto|].
        apply list_elem_of_singleton in Hd. auto.
      * intros [[ds [[= <-] Hd]]|[_ ->]]; eexists; (split; [done|]);
          rewrite elem_of_app, list_elem_of_singleton; auto.
    + rewrite lookup_insert_eq. simpl. split.
      * intros [ds [[= <-] Hd]]. apply list_elem_of_singleton in Hd. auto.
      * intros [[ds [[=] _]]|[_ ->]]. eexists. split; [done|].
        by apply list_elem_of_singleton.
  - rewrite lookup_alter_ne by done.
    destruct (visited st !! currNode) as [depths|] eqn:Hv.
    + split; [auto|]. intros [?|[? _]]; [done|congruence].
    + rewrite lookup_insert_ne by done.
      split; [auto|]. intros [?|[? _]]; [done|congruence].
Qed.

Lemma createIndex_path_rendered app settings index0 path :
  forall depth acc st,
    rendered app settings index0 acc st ->
    rendered app settings index0
      (acc ++ keepFirstSeen acc (withDepth depth path))
      (createIndex_path app settings depth path st).
Proof.
  induction path as [|currNode rest IH]; intros depth acc st Hst; simpl.
  - by rewrite app_nil_r.
  - destruct Hst as [Hout Hvis].
    destruct (visitedAt (visited st) currNode depth) eqn:Hat.
    + rewrite bool_decide_eq_true_2 by (by apply Hvis).
      apply IH. by split.
    + rewrite bool_decide_eq_false_2
        by (rewrite <- Hvis; congruence).
      replace (acc ++ (currNode, depth)
                 :: keepFirstSeen (acc ++ [(currNode, depth)]) (withDepth (S depth) rest))
        with ((acc ++ [(currNode, depth)])
                ++ keepFirstSeen (acc ++ [(currNode, depth)]) (withDepth (S depth) rest))
        by (by rewrite <- app_assoc).
      apply IH. split.
      * rewrite createIndex_render_out, Hout, map_app, concatLines_app.
        simpl. by rewrite string_app_nil_r, string_app_assoc.
      * intros n d. rewrite createIndex_render_visited, Hvis, elem_of_app,
          list_elem_of_singleton. split.
        -- intros [?|[-> ->]]; auto.
        -- intros [?|[= -> ->]]; auto.
Qed.

Lemma createIndex_paths_rendered app settings index0 paths :
  forall acc st,
    rendered app settings index0 acc st ->
    rendered app settings index0
      (acc ++ keepFirstSeen acc (concat (map (withDepth 0) paths)))
      (foldl (fun st path => createIndex_path app settings 0 path st) st paths).
Proof.
  induction paths as [|path paths IH]; intros acc st Hst; simpl.
  - by rewrite app_nil_r.
  - rewrite keepFirstSeen_app, app_assoc. apply IH.
    by apply createIndex_path_rendered.
Qed.

Lemma createIndex_lines app index allPaths settings :
  createIndex app index allPaths settings
  = index +:+ concatLines (map (outlineLine app settings) (renderedLines allPaths)).
Proof.
  unfold createIndex, renderedLines, occurrences.
  rewrite map_map.
  assert (rendered app settings index [] (mkIndex index ∅)) as Hinit.
  { split; simpl; [by rewrite string_app_nil_r|].
    intros n d. rewrite visitedAt_true. split.
    - intros [ds [Hds _]]. by rewrite lookup_empty in Hds.
    - by intros ?%elem_of_nil. }
  apply (createIndex_paths_rendered app settings index
           (map (fun path => tail (rev path)) allPaths)) in Hinit.
  destruct Hinit as [Hout _]. rewrite Hout. simpl.
  by rewrite map_map.
Qed.

Lemma withDepth_elem path : forall depth n d,
  (n, d) ∈ withDepth depth path <-> depth <= d /\ path !! (d - depth) = Some n.
Proof.
  induction path as [|x path IH]; intros depth n d; simpl.
  - split; [by intros ?%elem_of_nil|by intros [_ ?]].
  - rewrite elem_of_cons, IH. split.
    + intros [[= -> ->]|[Hle Hl]].
      * split; [lia|]. by rewrite Nat.sub_diag.
      * split; [lia|]. by replace (d - depth) with (S (d - S depth)) by lia.
    + intros [Hle Hl]. destruct (decide (d = depth)) as [->|Hne].
      * rewrite Nat.sub_diag in Hl. simpl in Hl. left. congruence.
      * right. split; [lia|].
        by replace (d - depth) with (S (d - S depth)) in Hl by lia.
Qed.

Lemma elem_of_concat {A} (x : A) (ls : list (list A)) :
  x ∈ concat ls <-> exists l, x ∈ l /\ l ∈ ls.
Proof.
  induction ls as [|l0 ls IH]; simpl.
  - split; [by intros ?%elem_of_nil|by intros [? [_ ?%elem_of_nil]]].
  - rewrite elem_of_app, IH. split.
    + intros [?|[l [? ?]]]; [exists l0|exists l]; (split; [done|]);
        [by left|by right].
    + intros [l [Hx [->|?]%elem_of_cons]]; eauto.
Qed.

Lemma occurrences_elem allPaths n d :
  (n, d) ∈ occurrences allPaths
  <-> exists path, path ∈ allPaths /\ tail (rev path) !! d = Some n.
Proof.
  unfold occurrences. rewrite elem_of_concat. split.
  - intros [l [Hin [path [-> Hpath]]%list_elem_of_fmap]].
    apply withDepth_elem in Hin as [_ Hl]. rewrite Nat.sub_0_r in Hl. eauto.
  - intros [path [Hpath Hl]]. exists (withDepth 0 (tail (rev path))). split.
    + apply withDepth_elem. rewrite Nat.sub_0_r. split; [lia|done].
    + apply list_elem_of_fmap. eauto.
Qed.

(** C3. For the children graph with the edges Root -> Mid and Mid -> Leaf,
    the local index of Root (the paths of [dfsAllPaths] handed to
    [createIndex] with the starting text "Root\n", without link markup and
    without aliases) is the text "Root\n- Mid\n  - Leaf\n": the single path
    is turned start first, loses Root, and each remaining node gets a line
    with two spaces per depth level and a bullet. *)
Theorem local_index_of_children_graph app showName pField sField cField :
  let settings := mkSettings false false showName pField sField cField in
  renderedLines (dfsAllPaths childrenGraph "Root") = [("Mid", 0); ("Leaf", 1)]
  /\ outlineLine app settings ("Mid", 0) = "- Mid" +:+ LF
  /\ outlineLine app settings ("Leaf", 1) = "  - Leaf" +:+ LF
  /\ createIndex app ("Root" +:+ LF) (dfsAllPaths childrenGraph "Root") settings
     = "Root" +:+ LF +:+ "- Mid" +:+ LF +:+ "  - Leaf" +:+ LF.
Proof.
  intros settings.
  assert (renderedLines (dfsAllPaths childrenGraph "Root")
          = [("Mid", 0); ("Leaf", 1)]) as Hlines by (vm_compute; reflexivity).
  split; [done|]. split; [reflexivity|]. split; [reflexivity|].
  rewrite createIndex_lines, Hlines. reflexivity.
Qed.

(** ** [createIndex] on ordinary note names *)

Lemma JS_hasOwnProperty_ordinary visited key :
  visited !! "hasOwnProperty" = None -> JS.ordinaryName key ->
  JS.hasOwnProperty visited key = Some (bool_decide (is_Some (visited !! key))).
Proof.
  intros Hclean [Hproto _]. unfold JS.hasOwnProperty. rewrite Hclean.
  by rewrite bool_decide_eq_false_2.
Qed.

Lemma JS_createIndex_visit_agrees activeFile app settings st depth currNode :
  visited st !! "hasOwnProperty" = None ->
  JS.ordinaryName currNode ->
  aliasesInIndex settings = false \/ is_Some activeFile ->
  JS.createIndex_visit activeFile app settings st depth currNode
  = Some (if visitedAt (visited st) currNode depth
          then st
          else createIndex_render app settings st depth currNode).
Proof.
  intros Hclean Hname Hfile. unfold JS.createIndex_visit.
  rewrite (JS_hasOwnProperty_ordinary _ _ Hclean Hname). simpl.
  unfold visitedAt.
  assert (forall index : string,
             (if aliasesInIndex settings then
                match activeFile with
                | None => None
                | Some _ =>
                    Some (if 0 <? length (frontmatterAlias app currNode
                                            ++ frontmatterAliases app currNode)
                          then index +:+ (" (" +:+ join ", "
                                 (frontmatterAlias app currNode
                                    ++ frontmatterAliases app currNode) +:+ ")")
                          else index)
                end
              else Some index)
             = Some (if aliasesInIndex settings then
                       if 0 <? length (frontmatterAlias app currNode
                                         ++ frontmatterAliases app currNode)
                       then index +:+ (" (" +:+ join ", "
                              (frontmatterAlias app currNode
                                 ++ frontmatterAliases app currNode) +:+ ")")
                       else index
                     else index)) as Halias.
  { intros index. destruct (aliasesInIndex settings); [|done].
    destruct Hfile as [?|[file ->]]; done. }
  unfold createIndex_render, JS.assignEmpty, JS.pushDepth.
  destruct Hname as [Hproto _].
  rewrite !(bool_decide_eq_false_2 (currNode = "__proto__")) by done.
  destruct (visited st !! currNode) as [depths|] eqn:Hv; simpl.
  - destruct (includes depths depth); [done|].
    rewrite Halias. reflexivity.
  - rewrite Halias. reflexivity.
Qed.

Lemma createIndex_render_clean app settings st depth currNode :
  visited st !! "hasOwnProperty" = None -> JS.ordinaryName currNode ->
  visited (createIndex_render app settings st depth currNode) !! "hasOwnProperty"
  = None.
Proof.
  intros Hclean [_ Hown]. unfold createIndex_render. simpl.
  rewrite lookup_alter_ne by done.
  destruct (visited st !! currNode); [done|]. by rewrite lookup_insert_ne.
Qed.

Lemma JS_createIndex_path_agrees activeFile app settings path :
  forall depth st,
    visited st !! "hasOwnProperty" = None ->
    Forall JS.ordinaryName path ->
    aliasesInIndex settings = false \/ is_Some activeFile ->
    JS.createIndex_path activeFile app settings depth path st
    = Some (createIndex_path app settings depth path st)
    /\ visited (createIndex_path app settings depth path st) !! "hasOwnProperty"
       = None.
Proof.
  induction path as [|currNode rest IH]; intros depth st Hclean Hnames Hfile;
    [done|].
  apply Forall_cons in Hnames as [Hname Hnames].
  cbn [JS.createIndex_path createIndex_path].
  rewrite JS_createIndex_visit_agrees by done. simpl.
  apply IH; [|done..].
  destruct (visitedAt (visited st) currNode depth); [done|].
  by apply createIndex_render_clean.
Qed.

Lemma JS_createIndex_paths_agrees activeFile app settings reversed :
  forall st,
    visited st !! "hasOwnProperty" = None ->
    Forall (Forall JS.ordinaryName) reversed ->
    aliasesInIndex settings = false \/ is_Some activeFile ->
    JS.createIndex_paths activeFile app settings reversed st
    = Some (foldl (fun st path => createIndex_path app settings 0 path st)
              st reversed).
Proof.
  induction reversed as [|path rest IH]; intros st Hclean Hnames Hfile; [done|].
  apply Forall_cons in Hnames as [Hpath Hnames].
  cbn [JS.createIndex_paths foldl].
  destruct (JS_createIndex_path_agrees activeFile app settings path 0 st)
    as [-> Hclean']; [done..|].
  simpl. by apply IH.
Qed.

Lemma Forall_tail_rev {A} (P : A -> Prop) (l : list A) :
  Forall P l -> Forall P (tail (rev l)).
Proof.
  intros Hl. apply Forall_forall. intros x Hx.
  rewrite Forall_forall in Hl. apply Hl.
  destruct (rev l) as [|y l'] eqn:Hrev; [by apply elem_of_nil in Hx|].
  simpl in Hx.
  assert (x ∈ rev l) as Hin by (rewrite Hrev; by right).
  apply list_elem_of_In, in_rev in Hin. by apply list_elem_of_In.
Qed.

(** On ordinary note names, and with an active file when aliases are shown,
    the object [visited] behaves as the table of [createIndex] and no
    TypeError is raised. *)
Lemma JS_createIndex_agrees activeFile app index allPaths settings :
  Forall (Forall JS.ordinaryName) allPaths ->
  aliasesInIndex settings = false \/ is_Some activeFile ->
  JS.createIndex activeFile app index allPaths settings
  = Some (createIndex app index allPaths settings).
Proof.
  intros Hnames Hfile. unfold JS.createIndex, createIndex.
  rewrite JS_createIndex_paths_agrees; [done|done| |done].
  apply Forall_fmap, Forall_fmap. eapply Forall_impl; [exact Hnames|].
  intros path. apply Forall_tail_rev.
Qed.

(** X19. Where the object [visited] departs from a table.  A note named
    "__proto__" never becomes an own key, so it is rendered again at a depth
    where it has been rendered; once a note named "hasOwnProperty" has been
    rendered, the next look-up raises a TypeError; and so does the first
    line when aliases are shown and no file is active. *)
Theorem createIndex_special_note_names :
  JS.createIndex None plainApp "" [["__proto__"; "A"]; ["__proto__"; "A"]]
    plainSettings
  = Some ("- __proto__" +:+ LF +:+ "- __proto__" +:+ LF)
  /\ createIndex plainApp "" [["__proto__"; "A"]; ["__proto__"; "A"]]
       plainSettings
     = "- __proto__" +:+ LF
  /\ JS.createIndex None plainApp "" [["hasOwnProperty"; "A"]] plainSettings
     = Some ("- hasOwnProperty" +:+ LF)
  /\ JS.createIndex None plainApp "" [["X"; "hasOwnProperty"; "A"]] plainSettings
     = None
  /\ (forall app index wikilinks showName pField sField cField,
         JS.createIndex None app index [["B"; "A"]]
           (mkSettings wikilinks true showName pField sField cField)
         = None).
Proof.
  split; [vm_compute; reflexivity|].
  split; [vm_compute; reflexivity|].
  split; [vm_compute; reflexivity|].
  split; [vm_compute; reflexivity|].
  intros app index wikilinks showName pField sField cField. reflexivity.
Qed.

(** C6, as the code has it.  For notes whose names are ordinary keys of the
    object [visited] (and with an active file when aliases are shown),
    [createIndex] appends to the starting text one line per (node, depth)
    pair that occurs in the trimmed paths, in the order of first occurrence:
    no pair is rendered twice, and a node that occurs at several depths gets
    a line at each of them.  For the two paths A -> B -> C and A -> B -> D
    with root A, handed in sink first as [dfsAllPaths] produces them, the
    outline lists B once at depth 0 and C and D once each at depth 1. *)
Theorem createIndex_renders_each_depth_once :
  (forall activeFile app index allPaths settings,
      Forall (Forall JS.ordinaryName) allPaths ->
      aliasesInIndex settings = false \/ is_Some activeFile ->
      JS.createIndex activeFile app index allPaths settings
      = Some (index +:+ concatLines (map (outlineLine app settings)
                                       (renderedLines allPaths)))
      /\ NoDup (renderedLines allPaths)
      /\ (forall n d,
             (n, d) ∈ renderedLines allPaths
             <-> exists path, path ∈ allPaths /\ tail (rev path) !! d = Some n))
  /\ (forall activeFile app showName pField sField cField,
      let allPaths := [["C"; "B"; "A"]; ["D"; "B"; "A"]] in
      renderedLines allPaths = [("B", 0); ("C", 1); ("D", 1)]
      /\ JS.createIndex activeFile app ("A" +:+ LF) allPaths
           (mkSettings false false showName pField sField cField)
         = Some ("A" +:+ LF +:+ "- B" +:+ LF +:+ "  - C" +:+ LF +:+ "  - D" +:+ LF))
  /\ renderedLines [["B"; "A"; "X"]; ["B"; "X"]] = [("A", 0); ("B", 1); ("B", 0)].
Proof.
  split; [|split].
  - intros activeFile app index allPaths settings Hnames Hfile.
    split; [by rewrite JS_createIndex_agrees, createIndex_lines|].
    split; [apply keepFirstSeen_NoDup|].
    intros n d. unfold renderedLines.
    rewrite keepFirstSeen_elem, occurrences_elem.
    split; [tauto|]. intros ?. split; [done|]. by intros ?%elem_of_nil.
  - intros activeFile app showName pField sField cField allPaths.
    assert (renderedLines allPaths = [("B", 0); ("C", 1); ("D", 1)]) as Hlines
      by (vm_compute; reflexivity).
    split; [done|].
    rewrite JS_createIndex_agrees, createIndex_lines, Hlines; [done| |by left].
    apply (bool_decide_unpack _). vm_compute. exact I.
  - vm_compute. reflexivity.
Qed.

Lemma createIndex_renders_each_depth_once_witness :
  JS.createIndex None plainApp ("X" +:+ LF) [["B"; "A"; "X"]; ["B"; "X"]]
    plainSettings
  = Some (("X" +:+ LF)
          +:+ concatLines (map (outlineLine plainApp plainSettings)
                             (renderedLines [["B"; "A"; "X"]; ["B"; "X"]])))
  /\ NoDup (renderedLines [["B"; "A"; "X"]; ["B"; "X"]])
  /\ (forall n d,
         (n, d) ∈ renderedLines [["B"; "A"; "X"]; ["B"; "X"]]
         <-> exists path, path ∈ [["B"; "A"; "X"]; ["B"; "X"]]
                          /\ tail (rev path) !! d = Some n).
Proof.
  apply (proj1 createIndex_renders_each_depth_once None plainApp ("X" +:+ LF)
           [["B"; "A"; "X"]; ["B"; "X"]] plainSettings).
  - apply (bool_decide_unpack _). vm_compute. exact I.
  - left. reflexivity.
Defined.

(** C6, as the spec words it, fails on its example: given the paths
    [A, B, C] and [A, B, D] start first, [createIndex] reverses them and
    drops C and D, so that the outline lists B at depth 0 and A at depth 1,
    and neither C nor D. *)
Lemma createIndex_start_first_paths_drop_leaves :
  let allPaths := [["A"; "B"; "C"]; ["A"; "B"; "D"]] in
  renderedLines allPaths = [("B", 0); ("A", 1)]
  /\ (("C", 1) ∉ renderedLines allPaths)
  /\ (("D", 1) ∉ renderedLines allPaths)
  /\ createIndex plainApp ("A" +:+ LF) allPaths plainSettings
     = "A" +:+ LF +:+ "- B" +:+ LF +:+ "  - A" +:+ LF
  /\ JS.createIndex None plainApp ("A" +:+ LF) allPaths plainSettings
     = Some ("A" +:+ LF +:+ "- B" +:+ LF +:+ "  - A" +:+ LF).
Proof.
  intros allPaths.
  assert (renderedLines allPaths = [("B", 0); ("A", 1)]) as Hlines
    by (vm_compute; reflexivity).
  rewrite Hlines. split; [done|].
  split; [by intros [[=]|[[=]|?%elem_of_nil]%elem_of_cons]%elem_of_cons|].
  split; [by intros [[=]|[[=]|?%elem_of_nil]%elem_of_cons]%elem_of_cons|].
  split; vm_compute; reflexivity.
Qed.

(** ** The adjacency list that [draw] filters *)

Lemma findIndex_app_found {A} (p : A -> bool) (l1 l2 : list A) (x : A) :
  x ∈ l1 -> p x = true ->
  (0 <= findIndex p (l1 ++ l2) < Z.of_nat (length l1))%Z.
Proof.
  induction l1 as [|y l1 IH]; intros Hx Hp; [by apply elem_of_nil in Hx|].
  simpl. destruct (p y) eqn:Hy; [lia|].
  apply elem_of_cons in Hx as [->|Hx]; [congruence|].
  specialize (IH Hx Hp).
  destruct (findIndex p (l1 ++ l2) <? 0)%Z eqn:Hneg; lia.
Qed.

Lemma findIndex_app_first {A} (p : A -> bool) (l1 l2 : list A) (y : A) :
  (forall x, x ∈ l1 -> p x = false) -> p y = true ->
  findIndex p (l1 ++ y :: l2) = Z.of_nat (length l1).
Proof.
  induction l1 as [|z l1 IH]; intros Hl1 Hy; simpl.
  - by rewrite Hy.
  - rewrite (Hl1 z) by left.
    rewrite IH; [|intros x Hx; apply Hl1; by right|done].
    destruct (Z.of_nat (length l1) <? 0)%Z eqn:Hneg; lia.
Qed.

Lemma sameEntry_true thing t : sameEntry thing t = true <-> t = thing.
Proof.
  unfold sameEntry. rewrite andb_true_iff, !bool_decide_eq_true.
  destruct thing, t; simpl. split; [by intros [-> ->]|by intros [= -> ->]].
Qed.

Lemma sameEntry_false thing t : t <> thing -> sameEntry thing t = false.
Proof.
  intros Hne. destruct (sameEntry thing t) eqn:Hs; [|done].
  by apply sameEntry_true in Hs.
Qed.

Lemma noDoubles_from seen rest :
  filterFrom
    (fun thing index self => (Z.of_nat index =? findIndex (sameEntry thing) self)%Z)
    (seen ++ rest) (length seen) rest
  = keepFirstSeen seen rest.
Proof.
  revert seen. induction rest as [|thing rest IH]; intros seen; [done|].
  cbn [filterFrom keepFirstSeen].
  replace (seen ++ thing :: rest) with ((seen ++ [thing]) ++ rest)
    by (by rewrite <- app_assoc).
  replace (S (length seen)) with (length (seen ++ [thing]))
    by (rewrite length_app; simpl; lia).
  rewrite IH. case_bool_decide as Hseen.
  - pose proof (findIndex_app_found (sameEntry thing) seen (thing :: rest) thing
                  Hseen (proj2 (sameEntry_true thing thing) eq_refl)) as Hfound.
    rewrite <- app_assoc. simpl.
    destruct (Z.eqb_spec (Z.of_nat (length seen))
                (findIndex (sameEntry thing) (seen ++ thing :: rest))) as [Heq|_].
    + rewrite <- Heq in Hfound. lia.
    + apply keepFirstSeen_ext. intros x.
      rewrite elem_of_app, list_elem_of_singleton. split; [|auto].
      by intros [?| ->].
  - rewrite <- app_assoc. simpl.
    rewrite findIndex_app_first, Z.eqb_refl; [done| |by apply sameEntry_true].
    intros x Hx. apply sameEntry_false. by intros ->.
Qed.

Lemma noDoubles_keepFirstSeen adjList : noDoubles adjList = keepFirstSeen [] adjList.
Proof. apply (noDoubles_from [] adjList). Qed.

(** C7, as the code has it.  [dfsAdjList] itself returns one entry per edge
    it walks, duplicates included; the list [draw] hands to the hierarchy
    builder is that list filtered by [noDoubles], which keeps the first
    occurrence of every (name, parentId) pair and drops the later ones: it
    has no two equal entries, holds the same entries as the unfiltered list,
    and keeps them in their first-seen order. *)
Theorem draw_adjacency_entries_unique (closedParents : Graph) (currFile : TFile) :
  let unfiltered := dfsAdjList closedParents (basename currFile) in
  draw_noDoubles closedParents currFile = keepFirstSeen [] unfiltered
  /\ NoDup (draw_noDoubles closedParents currFile)
  /\ (forall entry, entry ∈ draw_noDoubles closedParents currFile <-> entry ∈ unfiltered)
  /\ draw_noDoubles closedParents currFile `sublist_of` unfiltered.
Proof.
  intros unfiltered. unfold draw_noDoubles. fold unfiltered.
  rewrite noDoubles_keepFirstSeen.
  split; [done|]. split; [apply keepFirstSeen_NoDup|].
  split; [|apply keepFirstSeen_sublist].
  intros entry. rewrite keepFirstSeen_elem.
  split; [tauto|]. intros ?. split; [done|]. by intros ?%elem_of_nil.
Qed.

(** C7, as the spec words it, fails: on the diamond Root -> A -> Leaf,
    Root -> B -> Leaf with Leaf -> X the list returned by [dfsAdjList]
    holds the entry of the edge Leaf -> X twice. *)
Lemma dfsAdjList_diamond_has_duplicate :
  dfsAdjList diamondGraph "Root" !! 3 = Some (mkAdj "Leaf" "X")
  /\ dfsAdjList diamondGraph "Root" !! 5 = Some (mkAdj "Leaf" "X")
  /\ ~ NoDup (dfsAdjList diamondGraph "Root").
Proof.
  assert (dfsAdjList diamondGraph "Root"
          = [mkAdj "Root" "A"; mkAdj "Root" "B"; mkAdj "B" "Leaf";
             mkAdj "Leaf" "X"; mkAdj "A" "Leaf"; mkAdj "Leaf" "X"]) as ->
    by (vm_compute; reflexivity).
  split; [done|]. split; [done|].
  intros Hnd.
  do 3 apply NoDup_cons_1_2 in Hnd. apply NoDup_cons_1_1 in Hnd.
  apply Hnd. right. left.
Qed.

(** ** Truncation at the bound *)

Lemma dfsAllPaths_loop_grows bound g st :
  pathsArr st `prefix_of` pathsArr (dfsAllPaths_loop bound g st).
Proof.
  apply (dfsAllPaths_loop_ind bound g
           (fun st st' => pathsArr st `prefix_of` pathsArr st')); [done|].
  intros st0 c rest st' _ _ IH. etrans; [|exact IH].
  unfold dfsAllPaths_body. simpl.
  destruct (length _ =? 0); [by apply prefix_app_r|done].
Qed.

Lemma dfsAllPaths_loop_resume bound bound' g st :
  bound <= bound' ->
  dfsAllPaths_loop bound' g (dfsAllPaths_loop bound g st)
  = dfsAllPaths_loop bound' g st.
Proof.
  intros Hle.
  apply (dfsAllPaths_loop_ind bound g
           (fun st st' => dfsAllPaths_loop bound' g st' = dfsAllPaths_loop bound' g st));
    [done|].
  intros st0 c rest st' Hq Hlt IH. rewrite IH.
  rewrite (dfsAllPaths_loop_eq bound' g st0), Hq.
  destruct (decide (i st0 < bound')); [done|lia].
Qed.

Lemma dfsAllPaths_loop_finished bound bound' g st :
  bound <= bound' -> queue (dfsAllPaths_loop bound g st) = [] ->
  dfsAllPaths_loop bound' g st = dfsAllPaths_loop bound g st.
Proof.
  intros Hle Hq. rewrite <- (dfsAllPaths_loop_resume bound bound') by done.
  by rewrite dfsAllPaths_loop_eq, Hq.
Qed.

(** C9, as the code has it.  [dfsAllPaths] always returns a list of paths and
    nothing else.  When the counter reaches 1000 the paths finalised so far
    are returned: they are an initial segment of what any larger bound would
    return, and when the loop stops before 1000 a larger bound returns the
    same list.  The list does not tell which of the two happened: from S, the
    graph with the loop C -> C uses up the budget and the graph without it
    does not, and both return [[L, S]]. *)
Theorem dfsAllPaths_truncates_silently :
  (forall g s bound,
      1000 <= bound ->
      dfsAllPaths g s
        `prefix_of` pathsArr (dfsAllPaths_loop bound g (dfsAllPaths_init s)))
  /\ (forall g s bound,
      1000 <= bound -> i (dfsAllPaths_run g s) < 1000 ->
      pathsArr (dfsAllPaths_loop bound g (dfsAllPaths_init s)) = dfsAllPaths g s)
  /\ (i (dfsAllPaths_run loopingGraph "S") = 1000
      /\ queue (dfsAllPaths_run loopingGraph "S") <> []
      /\ i (dfsAllPaths_run plainGraph "S") = 2
      /\ queue (dfsAllPaths_run plainGraph "S") = []
      /\ dfsAllPaths loopingGraph "S" = [["L"; "S"]]
      /\ dfsAllPaths plainGraph "S" = [["L"; "S"]]).
Proof.
  split; [|split].
  - intros g s bound Hle. unfold dfsAllPaths, dfsAllPaths_run.
    rewrite <- (dfsAllPaths_loop_resume 1000 bound) by done.
    apply dfsAllPaths_loop_grows.
  - intros g s bound Hle Hlt. unfold dfsAllPaths, dfsAllPaths_run in *.
    rewrite (dfsAllPaths_loop_finished 1000 bound); [done..|].
    destruct (dfsAllPaths_loop_exit 1000 g (dfsAllPaths_init s)) as [?|?];
      [done|lia].
  - vm_compute. repeat split; discriminate.
Qed.

Lemma dfsAllPaths_truncates_silently_witness :
  dfsAllPaths loopingGraph "S"
    `prefix_of` pathsArr (dfsAllPaths_loop 2000 loopingGraph (dfsAllPaths_init "S"))
  /\ pathsArr (dfsAllPaths_loop 2000 plainGraph (dfsAllPaths_init "S"))
     = dfsAllPaths plainGraph "S".
Proof.
  split.
  - apply (proj1 dfsAllPaths_truncates_silently loopingGraph "S" 2000). lia.
  - apply (proj1 (proj2 dfsAllPaths_truncates_silently) plainGraph "S" 2000);
      [lia|vm_compute; lia].
Defined.

(** C9, as the spec words it, fails: nothing computed from the returned list
    tells whether the counter reached the bound. *)
Lemma dfsAllPaths_hides_truncation :
  ~ (exists flag : list (list string) -> bool,
        forall g s, flag (dfsAllPaths g s) = true <-> i (dfsAllPaths_run g s) = 1000).
Proof.
  intros [flag Hflag].
  assert (dfsAllPaths loopingGraph "S" = dfsAllPaths plainGraph "S") as Hsame
    by (vm_compute; reflexivity).
  assert (i (dfsAllPaths_run loopingGraph "S") = 1000) as Hloop
    by (vm_compute; reflexivity).
  assert (i (dfsAllPaths_run plainGraph "S") = 2) as Hplain
    by (vm_compute; reflexivity).
  apply Hflag in Hloop. rewrite Hsame in Hloop. apply Hflag in Hloop.
  rewrite Hplain in Hloop. discriminate.
Qed.

(** ** Traversals that finish within the budget *)

Lemma sumOpt_cons_Some o rest k :
  sumOpt (o :: rest) = Some k ->
  exists k1 k2, o = Some k1 /\ sumOpt rest = Some k2 /\ k = k1 + k2.
Proof.
  simpl. destruct o as [k1|]; [|done].
  destruct (sumOpt rest) as [k2|]; [|done].
  intros [= <-]. eauto.
Qed.

Lemma sumOpt_elem {A} (f : A -> option nat) (l : list A) k x :
  sumOpt (map f l) = Some k -> x ∈ l -> exists kx, f x = Some kx.
Proof.
  revert k. induction l as [|y l IH]; intros k Hsum Hx;
    [by apply elem_of_nil in Hx|].
  apply sumOpt_cons_Some in Hsum as (k1 & k2 & Hy & Hrest & _).
  apply elem_of_cons in Hx as [->|Hx]; eauto.
Qed.

Lemma unfoldSize_Some g depth n k :
  unfoldSize g depth n = Some k ->
  exists depth' k',
    depth = S depth' /\ k = S k'
    /\ sumOpt (map (unfoldSize g depth') (orEmpty (successors g n))) = Some k'.
Proof.
  destruct depth as [|depth']; simpl; [done|].
  destruct (sumOpt _) as [k'|] eqn:Hsum; [|done].
  intros [= <-]. eauto.
Qed.

Lemma walksFrom_sink g depth n path :
  orEmpty (successors g n) = [] -> walksFrom g (S depth) n path = [n :: path].
Proof. intros Hs. simpl. by rewrite Hs. Qed.

Lemma walksFrom_inner g depth n path :
  orEmpty (successors g n) <> [] ->
  walksFrom g (S depth) n path
  = concat (map (fun m => walksFrom g depth m (n :: path)) (orEmpty (successors g n))).
Proof. intros Hs. simpl. by destruct (orEmpty (successors g n)). Qed.

Lemma dfsAllPaths_loop_step bound g it q paths i0 :
  i0 < bound ->
  dfsAllPaths_loop bound g (mkPaths (it :: q) paths i0)
  = dfsAllPaths_loop bound g
      (mkPaths
         (map (fun n => mkItem n (node it :: path it)) (orEmpty (successors g (node it)))
            ++ q)
         (match orEmpty (successors g (node it)) with
          | [] => paths ++ [node it :: path it]
          | _ => paths
          end)
         (S i0)).
Proof.
  intros Hlt. rewrite dfsAllPaths_loop_eq. simpl.
  destruct (decide (i0 < bound)); [|lia].
  unfold dfsAllPaths_body. simpl.
  by destruct (orEmpty (successors g (node it))).
Qed.

(** Started with the items [front] at the head of the queue, the loop works
    them off completely, in as many turns as their unfoldings have nodes,
    before it touches the rest of the queue. *)
Lemma dfsAllPaths_loop_segment bound g depth :
  forall front rest paths i0 k,
    sumOpt (map (fun it => unfoldSize g depth (node it)) front) = Some k ->
    i0 + k <= bound ->
    dfsAllPaths_loop bound g (mkPaths (front ++ rest) paths i0)
    = dfsAllPaths_loop bound g
        (mkPaths rest
           (paths ++ concat (map (fun it => walksFrom g depth (node it) (path it)) front))
           (i0 + k)).
Proof.
  induction depth as [|depth IHd]; intros front.
  - destruct front as [|it front]; intros rest paths i0 k Hsum Hle.
    + injection Hsum as <-. simpl. by rewrite app_nil_r, Nat.add_0_r.
    + by apply sumOpt_cons_Some in Hsum as (? & ? & ? & _).
  - induction front as [|it front IHf]; intros rest paths i0 k Hsum Hle.
    + injection Hsum as <-. simpl. by rewrite app_nil_r, Nat.add_0_r.
    + rewrite map_cons in Hsum.
      apply sumOpt_cons_Some in Hsum as (k1 & k2 & Hit & Hfront & ->).
      apply unfoldSize_Some in Hit as (d' & k1' & [= <-] & -> & Hsucc).
      rewrite map_cons. cbn [concat].
      change ((it :: front) ++ rest) with (it :: (front ++ rest)).
      rewrite dfsAllPaths_loop_step by lia.
      destruct (orEmpty (successors g (node it))) as [|m ms] eqn:Hs.
      * injection Hsucc as <-. rewrite walksFrom_sink by done.
        cbn [map app].
        rewrite (IHf rest _ (S i0) k2); [|done|lia].
        f_equal. f_equal; [by rewrite <- !app_assoc|lia].
      * rewrite <- Hs in *.
        assert (orEmpty (successors g (node it)) <> []) as Hne by (by rewrite Hs).
        rewrite walksFrom_inner by done.
        rewrite (IHd _ (front ++ rest) paths (S i0) k1');
          [| by rewrite map_map | lia].
        rewrite (IHf rest _ (S i0 + k1') k2); [|done|lia].
        rewrite map_map. cbn [node path].
        f_equal. f_equal; [by rewrite <- !app_assoc|lia].
Qed.

Lemma dfsAllPaths_run_complete g depth s pops :
  unfoldSize g depth s = Some pops -> pops <= 1000 ->
  dfsAllPaths_run g s = mkPaths [] (walksFrom g depth s []) pops.
Proof.
  intros Hsize Hle. unfold dfsAllPaths_run, dfsAllPaths_init.
  change [mkItem s []] with ([mkItem s []] ++ []).
  rewrite (dfsAllPaths_loop_segment 1000 g depth [mkItem s []] [] [] 0 pops);
    [| simpl; by rewrite Hsize, Nat.add_0_r | lia].
  rewrite dfsAllPaths_loop_eq. simpl. by rewrite app_nil_r.
Qed.

Lemma walksFrom_walk g depth : forall n path p,
  p ∈ walksFrom g depth n path ->
  exists t w, walk g n t w /\ isSink g t /\ p = rev w ++ path.
Proof.
  induction depth as [|depth IH]; intros n path p Hp; [by apply elem_of_nil in Hp|].
  destruct (orEmpty (successors g n)) as [|m ms] eqn:Hs.
  - rewrite walksFrom_sink in Hp by done.
    apply list_elem_of_singleton in Hp as ->.
    exists n, [n]. split; [constructor|done].
  - rewrite walksFrom_inner in Hp by (by rewrite Hs).
    apply elem_of_concat in Hp as [l [Hp [m' [-> Hm']]%list_elem_of_fmap]].
    apply IH in Hp as (t & w & Hw & Ht & ->).
    exists t, (n :: w). split; [by apply walk_step with m'|].
    split; [done|]. simpl. by rewrite <- app_assoc.
Qed.

Lemma walksFrom_complete g depth : forall n k path t w,
  unfoldSize g depth n = Some k -> walk g n t w -> isSink g t ->
  rev w ++ path ∈ walksFrom g depth n path.
Proof.
  induction depth as [|depth IH]; intros n k path t w Hsize Hw Ht; [done|].
  apply unfoldSize_Some in Hsize as (d' & k' & [= <-] & _ & Hsum).
  inversion Hw as [v|v m t' w' Hm Hw']; subst.
  - rewrite walksFrom_sink by done. simpl. left.
  - rewrite walksFrom_inner by (intros Hnil; rewrite Hnil in Hm; by apply elem_of_nil in Hm).
    destruct (sumOpt_elem _ _ _ m Hsum Hm) as [km Hkm].
    apply elem_of_concat. exists (walksFrom g depth m (n :: path)). split.
    + simpl. rewrite <- app_assoc. by apply (IH m km (n :: path) t w').
    + apply list_elem_of_fmap. eauto.
Qed.

Lemma NoDup_concat_map {A B} (f : A -> list B) (l : list A) :
  NoDup l -> (forall x, NoDup (f x)) ->
  (forall x1 x2 y, y ∈ f x1 -> y ∈ f x2 -> x1 = x2) ->
  NoDup (concat (map f l)).
Proof.
  intros Hl Hf Hdisj. induction Hl as [|x l Hx Hl IH]; simpl; [constructor|].
  apply NoDup_app. split; [apply Hf|]. split; [|done].
  intros y Hy [l' [Hy' [x' [-> Hx']]%list_elem_of_fmap]]%elem_of_concat.
  by rewrite (Hdisj x x' y Hy Hy') in Hx.
Qed.

Lemma walksFrom_NoDup g depth :
  (forall v, NoDup (orEmpty (successors g v))) ->
  forall n path, NoDup (walksFrom g depth n path).
Proof.
  intros Hg. induction depth as [|depth IH]; intros n path; [constructor|].
  destruct (orEmpty (successors g n)) as [|m ms] eqn:Hs.
  - rewrite walksFrom_sink by done. apply NoDup_singleton.
  - rewrite walksFrom_inner by (by rewrite Hs).
    apply NoDup_concat_map; [apply Hg|by intros|].
    intros m1 m2 p (t1 & w1 & Hw1 & _ & ->)%walksFrom_walk
                    (t2 & w2 & Hw2 & _ & Heq)%walksFrom_walk.
    apply app_inv_tail in Heq. apply (f_equal (@rev string)) in Heq.
    rewrite !rev_involutive in Heq. subst w2.
    apply walk_head in Hw1, Hw2. congruence.
Qed.

Lemma simpleGraph_successors g v :
  simpleGraph g -> NoDup (orEmpty (successors g v)).
Proof.
  intros Hg. unfold successors, orEmpty.
  destruct (sucs g !! v) as [ns|] eqn:Hv; simpl; [|constructor].
  by apply (Hg v ns).
Qed.

(** C5, as the code has it.  When the tree of walks unfolded from the start
    node is finite and has at most 1000 nodes, the traversal empties its
    queue, in as many iterations as that tree has nodes, and the result
    lists, sink first, exactly the walks from the start node to a sink, each
    one once: a sink reached along several walks gets several paths.  When
    walks from the start node are unique (tree-shaped input) this is exactly
    one path per reachable sink. *)
Theorem dfsAllPaths_one_path_per_walk (g : Graph) (s : string) (depth pops : nat) :
  unfoldSize g depth s = Some pops ->
  pops <= 1000 ->
  simpleGraph g ->
  i (dfsAllPaths_run g s) = pops
  /\ queue (dfsAllPaths_run g s) = []
  /\ (forall p, p ∈ dfsAllPaths g s <-> exists t, walk g s t (rev p) /\ isSink g t)
  /\ NoDup (dfsAllPaths g s)
  /\ ((forall t w1 w2, walk g s t w1 -> walk g s t w2 -> w1 = w2) ->
      forall t, isSink g t -> (exists w, walk g s t w) ->
      exists! p, p ∈ dfsAllPaths g s /\ head p = Some t).
Proof.
  intros Hsize Hle Hg. unfold dfsAllPaths.
  rewrite (dfsAllPaths_run_complete g depth s pops Hsize Hle). simpl.
  assert (forall p, p ∈ walksFrom g depth s []
                    <-> exists t, walk g s t (rev p) /\ isSink g t) as Helem.
  { intros p. split.
    - intros (t & w & Hw & Ht & ->)%walksFrom_walk.
      rewrite app_nil_r, rev_involutive. eauto.
    - intros (t & Hw & Ht).
      pose proof (walksFrom_complete g depth s pops [] t (rev p) Hsize Hw Ht) as Hin.
      by rewrite app_nil_r, rev_involutive in Hin. }
  split; [done|]. split; [done|]. split; [exact Helem|].
  split; [apply walksFrom_NoDup; intros v; by apply simpleGraph_successors|].
  intros Huniq t Ht [w Hw]. exists (rev w). split.
  - split.
    + apply Helem. exists t. by rewrite rev_involutive.
    + rewrite head_rev. by eapply walk_last.
  - intros p [(t' & Hw' & Ht')%Helem Hhead].
    assert (t' = t) as ->.
    { apply walk_last in Hw'. rewrite last_rev in Hw'. congruence. }
    rewrite (Huniq t w (rev p) Hw Hw'). by rewrite rev_involutive.
Qed.

Lemma childrenGraph_walks t w :
  walk childrenGraph "Root" t w ->
  (t, w) ∈ [("Root", ["Root"]); ("Mid", ["Root"; "Mid"]);
            ("Leaf", ["Root"; "Mid"; "Leaf"])].
Proof.
  assert (orEmpty (successors childrenGraph "Root") = ["Mid"]) as HRoot
    by (vm_compute; reflexivity).
  assert (orEmpty (successors childrenGraph "Mid") = ["Leaf"]) as HMid
    by (vm_compute; reflexivity).
  assert (orEmpty (successors childrenGraph "Leaf") = []) as HLeaf
    by (vm_compute; reflexivity).
  intros Hw. inversion Hw as [|? m ? w1 Hm Hw1]; subst; [left|].
  rewrite HRoot in Hm. apply list_elem_of_singleton in Hm as ->.
  inversion Hw1 as [|? m ? w2 Hm Hw2]; subst; [right; left|].
  rewrite HMid in Hm. apply list_elem_of_singleton in Hm as ->.
  inversion Hw2 as [|? m ? w3 Hm Hw3]; subst; [right; right; left|].
  rewrite HLeaf in Hm. by apply elem_of_nil in Hm.
Qed.

Lemma childrenGraph_unique_walks t w1 w2 :
  walk childrenGraph "Root" t w1 -> walk childrenGraph "Root" t w2 -> w1 = w2.
Proof.
  intros H1%childrenGraph_walks H2%childrenGraph_walks.
  repeat (apply elem_of_cons in H1 as [[= -> ->]|H1]);
    [..|by apply elem_of_nil in H1];
    repeat (apply elem_of_cons in H2 as [[= ->]|H2]);
    try done; by apply elem_of_nil in H2.
Qed.

Lemma dfsAllPaths_one_path_per_walk_witness :
  i (dfsAllPaths_run childrenGraph "Root") = 3
  /\ queue (dfsAllPaths_run childrenGraph "Root") = []
  /\ NoDup (dfsAllPaths childrenGraph "Root")
  /\ exists! p, p ∈ dfsAllPaths childrenGraph "Root" /\ head p = Some "Leaf".
Proof.
  assert (unfoldSize childrenGraph 3 "Root" = Some 3) as Hsize
    by (vm_compute; reflexivity).
  assert (simpleGraph childrenGraph) as Hsimple
    by (apply (bool_decide_unpack _); vm_compute; exact I).
  destruct (dfsAllPaths_one_path_per_walk childrenGraph "Root" 3 3 Hsize
              ltac:(lia) Hsimple) as (Hi & Hq & _ & Hnd & Htree).
  split; [done|]. split; [done|]. split; [done|].
  apply Htree.
  - apply childrenGraph_unique_walks.
  - vm_compute. reflexivity.
  - exists ["Root"; "Mid"; "Leaf"].
    apply walk_step with "Mid"; [vm_compute; left|].
    apply walk_step with "Leaf"; [vm_compute; left|].
    constructor.
Defined.

(** C5, as the spec words it, fails twice.  The diamond is a finite acyclic
    graph whose longest walk has four nodes, its only sink X is reached
    along two walks, and two paths are returned for it.  The star with 1000
    leaves is a tree whose longest walk has two nodes; it takes 1001
    iterations, so that only 999 paths are returned and the last leaf gets
    none. *)
Lemma dfsAllPaths_not_one_path_per_sink :
  (unfoldSize diamondGraph 4 "Root" = Some 7
   /\ dfsAllPaths diamondGraph "Root"
      = [["X"; "Leaf"; "A"; "Root"]; ["X"; "Leaf"; "B"; "Root"]]
   /\ ~ (exists! p, p ∈ dfsAllPaths diamondGraph "Root" /\ head p = Some "X"))
  /\ (unfoldSize (starGraph 1000) 2 "R" = Some 1001
      /\ "c999" ∈ orEmpty (successors (starGraph 1000) "R")
      /\ isSink (starGraph 1000) "c999"
      /\ length (dfsAllPaths (starGraph 1000) "R") = 999
      /\ ~ (exists p, p ∈ dfsAllPaths (starGraph 1000) "R" /\ head p = Some "c999")).
Proof.
  split.
  - assert (dfsAllPaths diamondGraph "Root"
            = [["X"; "Leaf"; "A"; "Root"]; ["X"; "Leaf"; "B"; "Root"]]) as Hres
      by (vm_compute; reflexivity).
    split; [vm_compute; reflexivity|]. split; [done|].
    rewrite Hres. intros [p [_ Huniq]].
    assert (p = ["X"; "Leaf"; "A"; "Root"]) as ->
      by (apply Huniq; split; [left|done]).
    assert (["X"; "Leaf"; "A"; "Root"] = ["X"; "Leaf"; "B"; "Root"]) as Heq
      by (apply Huniq; split; [right; left|done]).
    discriminate.
  - split; [vm_compute; reflexivity|].
    split; [apply (bool_decide_unpack _); vm_compute; exact I|].
    split; [vm_compute; reflexivity|].
    split; [vm_compute; reflexivity|].
    intros [p [Hp Hhead]].
    assert (Forall (fun p => head p <> Some "c999") (dfsAllPaths (starGraph 1000) "R"))
      as Hall by (apply (bool_decide_unpack _); vm_compute; exact I).
    rewrite Forall_forall in Hall. by apply (Hall p).
Qed.

(** * Further properties of the view *)

(** ** Size of the result of [dfsAllPaths] *)

Lemma dfsAllPaths_sizes bound g st :
  (length (pathsArr st) <= i st
   /\ Forall (fun it => length (path it) <= i st) (queue st)
   /\ Forall (fun p => 1 <= length p <= i st) (pathsArr st)) ->
  let st' := dfsAllPaths_loop bound g st in
  length (pathsArr st') <= i st'
  /\ Forall (fun it => length (path it) <= i st') (queue st')
  /\ Forall (fun p => 1 <= length p <= i st') (pathsArr st').
Proof.
  apply (dfsAllPaths_loop_inv bound g
           (fun st => length (pathsArr st) <= i st
                      /\ Forall (fun it => length (path it) <= i st) (queue st)
                      /\ Forall (fun p => 1 <= length p <= i st) (pathsArr st))).
  clear st. intros st c rest (Hn & Hq & Hp) Hst _.
  rewrite Hst in Hq. apply Forall_cons in Hq as [Hc Hrest].
  unfold dfsAllPaths_body. simpl.
  assert (Forall (fun p => 1 <= length p <= S (i st)) (pathsArr st)) as Hp'
    by (eapply Forall_impl; [exact Hp|simpl; intros; lia]).
  split; [|split].
  - destruct (length _ =? 0); [rewrite length_app; simpl|]; lia.
  - apply Forall_app. split.
    + apply Forall_fmap, Forall_forall. intros n _. simpl. lia.
    + eapply Forall_impl; [exact Hrest|simpl; intros; lia].
  - destruct (length _ =? 0); [|done].
    apply Forall_app. split; [done|].
    apply Forall_singleton. simpl. lia.
Qed.

(** X1. [dfsAllPaths] returns at most 1000 paths, and every returned path has
    at least one and at most 1000 nodes. *)
Theorem dfsAllPaths_result_bounded (g : Graph) (startNode : string) :
  length (dfsAllPaths g startNode) <= 1000
  /\ Forall (fun p => 1 <= length p <= 1000) (dfsAllPaths g startNode).
Proof.
  unfold dfsAllPaths, dfsAllPaths_run.
  pose proof (dfsAllPaths_loop_bounded 1000 g (dfsAllPaths_init startNode)) as Hi.
  destruct (dfsAllPaths_sizes 1000 g (dfsAllPaths_init startNode)) as (Hn & _ & Hp).
  { simpl. split; [lia|]. split; [|constructor].
    apply Forall_singleton. simpl. lia. }
  simpl in Hi. split; [lia|].
  eapply Forall_impl; [exact Hp|]. simpl. intros p ?. lia.
Qed.

(** ** What [dfsAdjList] records *)

Lemma dfsAdjList_loop_inv bound g (Inv : AdjState -> Prop) :
  (forall st c rest,
      Inv st -> nodeQueue st = c :: rest -> adjI st < bound ->
      Inv (dfsAdjList_body g st c rest)) ->
  forall st, Inv st -> Inv (dfsAdjList_loop bound g st).
Proof.
  intros Hstep st.
  apply (dfsAdjList_loop_ind bound g (fun st st' => Inv st -> Inv st')); eauto.
Qed.

Lemma dfsAdjList_visit_foldl currNode newNodes q entries :
  foldl (dfsAdjList_visit currNode) (q, entries) newNodes
  = (rev newNodes ++ q, entries ++ map (mkAdj currNode) newNodes).
Proof.
  revert q entries. induction newNodes as [|n ns IH]; intros q entries; simpl.
  - by rewrite app_nil_r.
  - change (dfsAdjList_visit currNode (q, entries) n)
      with (n :: q, entries ++ [mkAdj currNode n]).
    rewrite IH. by rewrite <- !app_assoc.
Qed.

Lemma dfsAdjList_body_eq g st currNode rest :
  dfsAdjList_body g st currNode rest
  = mkAdjState
      (rev (orEmpty (successors g currNode)) ++ rest)
      (adjList st ++ map (mkAdj currNode) (orEmpty (successors g currNode)))
      (S (adjI st)).
Proof.
  unfold dfsAdjList_body. by rewrite dfsAdjList_visit_foldl.
Qed.

Lemma elem_of_rev {A} (x : A) (l : list A) : x ∈ rev l <-> x ∈ l.
Proof. rewrite !list_elem_of_In. symmetry. apply in_rev. Qed.

Lemma walk_snoc_exists g s v m :
  (exists w, walk g s v w) -> m ∈ orEmpty (successors g v) ->
  exists w, walk g s m w.
Proof. intros [w Hw] Hm. exists (w ++ [m]). by eapply walk_snoc. Qed.

Lemma dfsAdjList_sound_inv g s :
  let st := dfsAdjList_run g s in
  Forall (fun v => exists w, walk g s v w) (nodeQueue st)
  /\ Forall (fun entry =>
               (exists w, walk g s (name entry) w)
               /\ parentId entry ∈ orEmpty (successors g (name entry)))
       (adjList st).
Proof.
  unfold dfsAdjList_run.
  apply (dfsAdjList_loop_inv 1000 g
           (fun st =>
              Forall (fun v => exists w, walk g s v w) (nodeQueue st)
              /\ Forall (fun entry =>
                           (exists w, walk g s (name entry) w)
                           /\ parentId entry ∈ orEmpty (successors g (name entry)))
                   (adjList st))).
  - intros st c rest [Hq He] Hst _. rewrite Hst in Hq.
    apply Forall_cons in Hq as [Hc Hrest].
    rewrite dfsAdjList_body_eq. simpl. split.
    + apply Forall_app. split; [|done].
      apply Forall_forall. intros m Hm.
      rewrite elem_of_rev in Hm. by apply (walk_snoc_exists g s c m).
    + apply Forall_app. split; [done|].
      apply Forall_fmap, Forall_forall. intros m Hm. simpl. by split.
  - simpl. split; [|constructor].
    apply Forall_singleton. exists [s]. constructor.
Qed.

(** X2. Every entry returned by [dfsAdjList] is an edge of the graph: its
    [parentId] is a successor of its [name], and its [name] can be reached
    from the start node. *)
Theorem dfsAdjList_entries_are_edges (g : Graph) (startNode : string) :
  Forall (fun entry =>
            (exists w, walk g startNode (name entry) w)
            /\ parentId entry ∈ orEmpty (successors g (name entry)))
    (dfsAdjList g startNode).
Proof. apply (dfsAdjList_sound_inv g startNode). Qed.

Lemma dfsAdjList_closed_inv g s :
  let st := dfsAdjList_run g s in
  (s ∈ nodeQueue st \/ expanded g (adjList st) s)
  /\ (forall u m, expanded g (adjList st) u -> m ∈ orEmpty (successors g u) ->
                  m ∈ nodeQueue st \/ expanded g (adjList st) m).
Proof.
  unfold dfsAdjList_run.
  apply (dfsAdjList_loop_inv 1000 g
           (fun st =>
              (s ∈ nodeQueue st \/ expanded g (adjList st) s)
              /\ (forall u m, expanded g (adjList st) u ->
                              m ∈ orEmpty (successors g u) ->
                              m ∈ nodeQueue st \/ expanded g (adjList st) m))).
  - intros st c rest [Hs Hcl] Hst _. rewrite Hst in Hs, Hcl.
    rewrite dfsAdjList_body_eq. simpl.
    set (entries' := adjList st ++ map (mkAdj c) (orEmpty (successors g c))).
    assert (expanded g entries' c) as Hc.
    { intros m Hm. apply elem_of_app. right. by apply list_elem_of_fmap_2. }
    assert (forall u, expanded g (adjList st) u -> expanded g entries' u) as Hmono.
    { intros u Hu m Hm. apply elem_of_app. left. by apply Hu. }
    assert (forall v, v ∈ c :: rest \/ expanded g (adjList st) v ->
                      v ∈ rev (orEmpty (successors g c)) ++ rest
                      \/ expanded g entries' v) as Hkeep.
    { intros v [[->|Hv]%elem_of_cons|Hv]; [by right| |right; by apply Hmono].
      left. apply elem_of_app. by right. }
    split; [by apply Hkeep|].
    intros u m Hu Hm. destruct (decide (u = c)) as [->|Hne].
    + left. apply elem_of_app. left.
      by rewrite elem_of_rev.
    + apply Hkeep, (Hcl u m); [|done].
      intros m' Hm'. specialize (Hu m' Hm').
      apply elem_of_app in Hu as [Hu|Hu]; [done|].
      apply list_elem_of_fmap in Hu as [? [[= ? ?] _]]. congruence.
  - simpl. split; [left; left|].
    intros u m Hu Hm. right. intros m' Hm'.
    specialize (Hu m Hm). by apply elem_of_nil in Hu.
Qed.

Lemma expanded_walk g entries :
  (forall u m, expanded g entries u -> m ∈ orEmpty (successors g u) ->
               expanded g entries m) ->
  forall v t w, walk g v t w -> expanded g entries v -> expanded g entries t.
Proof.
  intros Hcl v t w Hw. induction Hw as [v|v m t w Hm Hw IH]; [done|].
  intros Hv. apply IH. by apply (Hcl v m).
Qed.

(** X3. When [dfsAdjList] stops with an empty queue, its entries are exactly
    the edges of the graph that leave a node reachable from the start node. *)
Theorem dfsAdjList_complete (g : Graph) (startNode : string) :
  nodeQueue (dfsAdjList_run g startNode) = [] ->
  forall entry,
    entry ∈ dfsAdjList g startNode
    <-> (exists w, walk g startNode (name entry) w)
        /\ parentId entry ∈ orEmpty (successors g (name entry)).
Proof.
  intros Hq entry.
  pose proof (proj2 (dfsAdjList_sound_inv g startNode)) as Hall.
  destruct (dfsAdjList_closed_inv g startNode) as [Hs Hcl].
  unfold dfsAdjList. revert Hq Hall Hs Hcl.
  generalize (dfsAdjList_run g startNode). intros st Hq Hall Hs Hcl.
  rewrite Hq in Hs, Hcl. split.
  - intros Hin. rewrite Forall_forall in Hall. by apply Hall.
  - intros [[w Hw] Hm].
    assert (expanded g (adjList st) (name entry)) as Hexp.
    { apply (expanded_walk g (adjList st)) with startNode w; [|done|].
      - intros u m Hu Hum. destruct (Hcl u m Hu Hum) as [Hnil|?]; [|done].
        by apply elem_of_nil in Hnil.
      - destruct Hs as [Hs|Hs]; [by apply elem_of_nil in Hs|done]. }
    destruct entry as [n m]. by apply Hexp.
Qed.

Lemma dfsAdjList_complete_witness :
  mkAdj "Mid" "Leaf" ∈ dfsAdjList childrenGraph "Root"
  <-> (exists w, walk childrenGraph "Root" (name (mkAdj "Mid" "Leaf")) w)
      /\ parentId (mkAdj "Mid" "Leaf")
           ∈ orEmpty (successors childrenGraph (name (mkAdj "Mid" "Leaf"))).
Proof.
  apply (dfsAdjList_complete childrenGraph "Root").
  vm_compute. reflexivity.
Defined.

(** ** [dfsAdjList] on finite unfoldings *)

Lemma sumOpt_app l1 l2 :
  sumOpt (l1 ++ l2)
  = match sumOpt l1, sumOpt l2 with
    | Some a, Some b => Some (a + b)
    | _, _ => None
    end.
Proof.
  induction l1 as [|o l1 IH]; simpl.
  - by destruct (sumOpt l2).
  - rewrite IH. destruct o as [k|]; [|done].
    destruct (sumOpt l1) as [a|]; [|done].
    destruct (sumOpt l2) as [b|]; [|done].
    f_equal. lia.
Qed.

Lemma sumOpt_rev l : sumOpt (rev l) = sumOpt l.
Proof.
  induction l as [|o l IH]; [done|].
  simpl. rewrite sumOpt_app, IH. simpl.
  destruct o as [k|], (sumOpt l) as [a|]; try done. f_equal. lia.
Qed.

Lemma dfsAdjList_loop_step bound g c q entries i0 :
  i0 < bound ->
  dfsAdjList_loop bound g (mkAdjState (c :: q) entries i0)
  = dfsAdjList_loop bound g
      (mkAdjState (rev (orEmpty (successors g c)) ++ q)
         (entries ++ map (mkAdj c) (orEmpty (successors g c)))
         (S i0)).
Proof.
  intros Hlt. rewrite dfsAdjList_loop_eq. simpl.
  destruct (decide (i0 < bound)); [|lia].
  by rewrite dfsAdjList_body_eq.
Qed.

Lemma dfsAdjList_loop_segment bound g depth :
  forall front rest entries i0 k,
    sumOpt (map (unfoldSize g depth) front) = Some k ->
    i0 + k <= bound ->
    exists entries',
      dfsAdjList_loop bound g (mkAdjState (front ++ rest) entries i0)
      = dfsAdjList_loop bound g (mkAdjState rest entries' (i0 + k)).
Proof.
  induction depth as [|depth IHd]; intros front.
  - destruct front as [|c front]; intros rest entries i0 k Hsum Hle.
    + injection Hsum as <-. exists entries. simpl. by rewrite Nat.add_0_r.
    + by apply sumOpt_cons_Some in Hsum as (? & ? & ? & _).
  - induction front as [|c front IHf]; intros rest entries i0 k Hsum Hle.
    + injection Hsum as <-. exists entries. simpl. by rewrite Nat.add_0_r.
    + rewrite map_cons in Hsum.
      apply sumOpt_cons_Some in Hsum as (k1 & k2 & Hc & Hfront & ->).
      apply unfoldSize_Some in Hc as (d' & k1' & [= <-] & -> & Hsucc).
      change ((c :: front) ++ rest) with (c :: (front ++ rest)).
      rewrite dfsAdjList_loop_step by lia.
      destruct (IHd (rev (orEmpty (successors g c))) (front ++ rest)
                  (entries ++ map (mkAdj c) (orEmpty (successors g c)))
                  (S i0) k1') as [entries1 Heq1].
      { by rewrite map_rev, sumOpt_rev. }
      { lia. }
      destruct (IHf rest entries1 (S i0 + k1') k2) as [entries2 Heq2];
        [done|lia|].
      exists entries2. rewrite Heq1, Heq2. f_equal. f_equal. lia.
Qed.

Lemma dfsAdjList_count_inv g s :
  let st := dfsAdjList_run g s in
  length (adjList st) + 1 = adjI st + length (nodeQueue st).
Proof.
  unfold dfsAdjList_run.
  apply (dfsAdjList_loop_inv 1000 g
           (fun st => length (adjList st) + 1 = adjI st + length (nodeQueue st))).
  - intros st c rest Hinv Hst _. rewrite Hst in Hinv.
    rewrite dfsAdjList_body_eq. simpl in *.
    rewrite !length_app, length_rev, length_map. lia.
  - done.
Qed.

(** X18. When the tree of walks unfolded from the start node is finite and
    has at most 1000 nodes, [dfsAdjList] and [dfsAllPaths] both empty their
    queue after as many iterations as the tree has nodes, and [dfsAdjList]
    returns one entry per node of the tree but its root. *)
Theorem traversals_finish_together (g : Graph) (startNode : string)
    (depth pops : nat) :
  unfoldSize g depth startNode = Some pops ->
  pops <= 1000 ->
  (nodeQueue (dfsAdjList_run g startNode) = []
   /\ adjI (dfsAdjList_run g startNode) = pops
   /\ length (dfsAdjList g startNode) + 1 = pops)
  /\ (queue (dfsAllPaths_run g startNode) = []
      /\ i (dfsAllPaths_run g startNode) = pops).
Proof.
  intros Hsize Hle. split.
  - pose proof (dfsAdjList_count_inv g startNode) as Hcount.
    unfold dfsAdjList. revert Hcount. unfold dfsAdjList_run, dfsAdjList_init.
    destruct (dfsAdjList_loop_segment 1000 g depth [startNode] [] [] 0 pops)
      as [entries Heq]; [by simpl; rewrite Hsize, Nat.add_0_r|lia|].
    simpl in Heq. rewrite Heq, dfsAdjList_loop_eq. simpl.
    intros Hcount. split; [done|]. split; lia.
  - by rewrite (dfsAllPaths_run_complete g depth startNode pops Hsize Hle).
Qed.

Lemma traversals_finish_together_witness :
  (nodeQueue (dfsAdjList_run diamondGraph "Root") = []
   /\ adjI (dfsAdjList_run diamondGraph "Root") = 7
   /\ length (dfsAdjList diamondGraph "Root") + 1 = 7)
  /\ (queue (dfsAllPaths_run diamondGraph "Root") = []
      /\ i (dfsAllPaths_run diamondGraph "Root") = 7).
Proof.
  apply (traversals_finish_together diamondGraph "Root" 4 7).
  - vm_compute. reflexivity.
  - lia.
Defined.

(** ** No path is returned twice *)

Lemma pathsApart_step g st c rest :
  NoDup (orEmpty (successors g (node c))) ->
  pathsApart st -> queue st = c :: rest ->
  pathsApart (dfsAllPaths_body g st c rest).
Proof.
  intros Hns [Hnd Hanti] Hst.
  unfold pathsApart, pathsInFlight in *. rewrite Hst in Hnd, Hanti.
  unfold dfsAllPaths_body. cbn [queue pathsArr map app] in *.
  set (cl := node c :: path c) in *.
  set (others := map (fun it => node it :: path it) rest ++ pathsArr st) in *.
  apply NoDup_cons in Hnd as [Hcl Hothers].
  destruct (orEmpty (successors g (node c))) as [|n0 ns0] eqn:Hs.
  - cbn [length Nat.eqb map app].
    assert (forall x, x ∈ map (fun it => node it :: path it) rest
                            ++ pathsArr st ++ [cl]
                      <-> x ∈ cl :: others) as Hsame.
    { intros x. unfold others.
      rewrite !elem_of_app, !elem_of_cons, !elem_of_app, elem_of_nil. tauto. }
    split.
    + rewrite app_assoc. fold others.
      apply NoDup_app. split; [done|]. split; [|apply NoDup_singleton].
      intros x Hx ->%list_elem_of_singleton. done.
    + intros x y Hx%Hsame Hy%Hsame. by apply Hanti.
  - rewrite <- Hs in *. clear Hs n0 ns0.
    set (ns := orEmpty (successors g (node c))) in *.
    assert (map (fun it => node it :: path it)
              (map (fun n => mkItem n cl) ns ++ rest)
            ++ (if length ns =? 0 then pathsArr st ++ [cl] else pathsArr st)
            = map (fun n => n :: cl) ns
              ++ (if length ns =? 0 then others ++ [cl] else others)) as ->.
    { rewrite map_app, map_map, <- app_assoc. simpl. f_equal.
      unfold others. destruct (length ns =? 0); [by rewrite app_assoc|done]. }
    destruct (length ns =? 0) eqn:Hlen.
    { apply Nat.eqb_eq in Hlen. destruct ns; [|done]. simpl.
      split.
      - apply NoDup_app. split; [done|]. split; [|apply NoDup_singleton].
        intros x Hx ->%list_elem_of_singleton. done.
      - intros x y [?|Hx%list_elem_of_singleton]%elem_of_app
                   [?|Hy%list_elem_of_singleton]%elem_of_app;
          subst; apply Hanti; by (left || right). }
    assert (forall n, n :: cl ∉ others) as Hfresh.
    { intros n Hin.
      assert (cl = n :: cl) as Heq.
      { apply Hanti; [by left|by right|]. apply suffix_cons_r. done. }
      apply (f_equal length) in Heq. simpl in Heq. lia. }
    split.
    + apply NoDup_app. split; [|split; [|done]].
      * apply NoDup_fmap_2_strong; [|done].
        intros n1 n2 _ _ Heq. by injection Heq.
      * intros x [n [-> _]]%list_elem_of_fmap. apply Hfresh.
    + intros x y [Hx|Hx]%elem_of_app [Hy|Hy]%elem_of_app Hsuf.
      * apply list_elem_of_fmap in Hx as [n1 [-> _]].
        apply list_elem_of_fmap in Hy as [n2 [-> _]].
        apply suffix_length_eq; [done|simpl; lia].
      * apply list_elem_of_fmap in Hx as [n [-> _]].
        assert (cl = y) as <-.
        { apply Hanti; [by left|by right|].
          etrans; [|exact Hsuf]. apply suffix_cons_r. done. }
        done.
      * apply list_elem_of_fmap in Hy as [n [-> _]].
        destruct x as [|x0 x'].
        { assert ([] = cl) as Heq; [|done].
          apply Hanti; [by right|by left|apply suffix_nil]. }
        apply suffix_cons_inv in Hsuf as [?|Hsuf]; [done|].
        assert (x0 :: x' = cl) as Heq
          by (apply Hanti; [by right|by left|done]).
        rewrite Heq in Hx. done.
      * apply Hanti; [by right|by right|done].
Qed.

Lemma dfsAllPaths_apart g s :
  simpleGraph g -> pathsApart (dfsAllPaths_run g s).
Proof.
  intros Hg. unfold dfsAllPaths_run.
  apply (dfsAllPaths_loop_inv 1000 g pathsApart).
  - intros st c rest Hinv Hst _. apply pathsApart_step; [|done..].
    by apply simpleGraph_successors.
  - unfold pathsApart, pathsInFlight. simpl. split; [apply NoDup_singleton|].
    intros x y ->%list_elem_of_singleton ->%list_elem_of_singleton _. done.
Qed.

(** X9. On a graph whose successor lists are free of repetitions,
    [dfsAllPaths] never returns the same path twice, whether or not the
    traversal was cut off at the bound, and no returned path is the
    continuation of another. *)
Theorem dfsAllPaths_paths_distinct (g : Graph) (startNode : string) :
  simpleGraph g ->
  NoDup (dfsAllPaths g startNode)
  /\ forall p q, p ∈ dfsAllPaths g startNode -> q ∈ dfsAllPaths g startNode ->
                 p `suffix_of` q -> p = q.
Proof.
  intros Hg. destruct (dfsAllPaths_apart g startNode Hg) as [Hnd Hanti].
  unfold pathsInFlight in *. fold (dfsAllPaths g startNode) in *. split.
  - by apply NoDup_app in Hnd as (_ & _ & Hnd).
  - intros p q Hp Hq. apply Hanti; apply elem_of_app; by right.
Qed.

Lemma dfsAllPaths_paths_distinct_witness :
  NoDup (dfsAllPaths loopingGraph "S").
Proof.
  apply (dfsAllPaths_paths_distinct loopingGraph "S").
  apply (bool_decide_unpack _). vm_compute. exact I.
Defined.

(** ** The index commands *)





(** X6. The local index of a note without successors in the closed graph (a
    sink, or a note the graph does not hold) is its header line alone. *)
Theorem localIndex_of_sink (app : App) (closed : Graph) (currFile : string)
    (settings : BreadcrumbsSettings) :
  orEmpty (successors closed currFile) = [] ->
  localIndex app closed currFile settings = currFile +:+ LF.
Proof.
  intros Hsink. unfold localIndex.
  by rewrite (dfsAllPaths_of_sink closed currFile Hsink).
Qed.

Lemma localIndex_of_sink_witness :
  localIndex plainApp childrenGraph "Leaf" plainSettings = "Leaf" +:+ LF.
Proof.
  apply (localIndex_of_sink plainApp childrenGraph "Leaf" plainSettings).
  vm_compute. reflexivity.
Defined.

(** ** The earlier [createIndex] *)





Lemma JS_Earlier_createIndex_visit_agrees settings st depth currNode :
  visited st !! "hasOwnProperty" = None ->
  JS.ordinaryName currNode ->
  JS.Earlier.createIndex_visit settings st depth currNode
  = Some (if visitedAt (visited st) currNode depth
          then st
          else Earlier.createIndex_render settings st depth currNode)
  /\ visited (if visitedAt (visited st) currNode depth
              then st
              else Earlier.createIndex_render settings st depth currNode)
       !! "hasOwnProperty" = None.
Proof.
  intros Hclean Hname. unfold JS.Earlier.createIndex_visit.
  rewrite (JS_hasOwnProperty_ordinary _ _ Hclean Hname). simpl.
  unfold visitedAt, Earlier.createIndex_render, JS.assignEmpty, JS.pushDepth.
  destruct Hname as [Hproto Hown].
  rewrite !(bool_decide_eq_false_2 (currNode = "__proto__")) by done.
  destruct (visited st !! currNode) as [depths|] eqn:Hv; simpl.
  - destruct (includes depths depth); [done|]. simpl.
    by rewrite lookup_alter_ne.
  - by rewrite lookup_alter_ne, lookup_insert_ne.
Qed.

Lemma JS_Earlier_createIndex_path_agrees settings path :
  forall depth st,
    visited st !! "hasOwnProperty" = None ->
    Forall JS.ordinaryName path ->
    JS.Earlier.createIndex_path settings depth path st
    = Some (Earlier.createIndex_path settings depth path st)
    /\ visited (Earlier.createIndex_path settings depth path st)
         !! "hasOwnProperty" = None.
Proof.
  induction path as [|currNode rest IH]; intros depth st Hclean Hnames; [done|].
  apply Forall_cons in Hnames as [Hname Hnames].
  cbn [JS.Earlier.createIndex_path Earlier.createIndex_path].
  destruct (JS_Earlier_createIndex_visit_agrees settings st depth currNode)
    as [-> Hclean']; [done..|].
  simpl. by apply IH.
Qed.

(** The earlier [createIndex], too, is a function of the table on ordinary
    note names. *)
Lemma JS_Earlier_createIndex_agrees allPaths currFile settings :
  Forall (Forall JS.ordinaryName) allPaths ->
  JS.Earlier.createIndex allPaths currFile settings
  = Some (Earlier.createIndex allPaths currFile settings).
Proof.
  intros Hnames. unfold JS.Earlier.createIndex, Earlier.createIndex.
  assert (Forall (Forall JS.ordinaryName)
            (map (fun path => tail path) (map (fun path => rev path) allPaths)))
    as Hrev.
  { apply Forall_fmap, Forall_fmap. eapply Forall_impl; [exact Hnames|].
    intros path. apply Forall_tail_rev. }
  assert (visited (mkIndex (currFile +:+ LF) ∅) !! "hasOwnProperty" = None)
    as Hclean by done.
  revert Hrev Hclean. generalize (mkIndex (currFile +:+ LF) ∅).
  induction (map (fun path => tail path) (map (fun path => rev path) allPaths))
    as [|path paths IH]; intros st Hrev Hclean; [done|].
  apply Forall_cons in Hrev as [Hpath Hrev].
  cbn [JS.Earlier.createIndex_paths foldl].
  destruct (JS_Earlier_createIndex_path_agrees settings path 0 st)
    as [-> Hclean']; [done..|].
  simpl. by apply IH.
Qed.

(** ** Depth in the outline and distance from the start node *)

Lemma renderedLines_elem allPaths n d :
  (n, d) ∈ renderedLines allPaths
  <-> exists path, path ∈ allPaths /\ tail (rev path) !! d = Some n.
Proof.
  unfold renderedLines. rewrite keepFirstSeen_elem, occurrences_elem.
  split; [tauto|]. intros ?. split; [done|]. by intros ?%elem_of_nil.
Qed.

Lemma walk_take g s t w : walk g s t w ->
  forall k n, w !! k = Some n -> walk g s n (take (S k) w).
Proof.
  induction 1 as [v|v m t w Hm Hw IH]; intros k n Hk.
  - destruct k as [|k]; [|done]. injection Hk as <-. constructor.
  - destruct k as [|k].
    + injection Hk as <-. constructor.
    + change (take (S (S k)) (v :: w)) with (v :: take (S k) w).
      apply walk_step with m; [done|]. by apply IH.
Qed.

(** X8. For notes whose names are ordinary keys of the object [visited],
    the local index of the active file is its header line followed by one
    line per rendered (node, depth) pair, and every line names a node that
    can be reached from the file: a line at depth [d] ends a walk of
    [d + 2] nodes that starts at the file, so it lies [d + 1] edges below
    it. *)
Theorem localIndex_depth_is_distance (app : App) (closed : Graph)
    (activeFile : TFile) (settings : BreadcrumbsSettings) :
  let currFile := basename activeFile in
  let lines := renderedLines (dfsAllPaths closed currFile) in
  Forall (Forall JS.ordinaryName) (dfsAllPaths closed currFile) ->
  JS.localIndex (Some activeFile) app closed settings
  = Some ((currFile +:+ LF) +:+ concatLines (map (outlineLine app settings) lines))
  /\ Forall (fun line => exists w, walk closed currFile line.1 w
                                   /\ length w = line.2 + 2) lines.
Proof.
  intros currFile lines Hnames. split.
  - unfold JS.localIndex. fold currFile.
    rewrite JS_createIndex_agrees; [|done|right; by eexists].
    by rewrite createIndex_lines.
  - apply Forall_forall. intros [n d] Hline. simpl.
    apply renderedLines_elem in Hline as (p & Hp & Hd).
    destruct (proj2 (dfsAllPaths_sound closed currFile) p Hp) as (t & Hw & _).
    rewrite lookup_tail in Hd.
    exists (take (S (S d)) (rev p)). split.
    + by apply walk_take with t.
    + apply lookup_lt_Some in Hd. rewrite length_take. lia.
Qed.

Lemma localIndex_depth_is_distance_witness :
  JS.localIndex (Some (mkFile "Root" "Root.md")) plainApp childrenGraph plainSettings
  = Some (("Root" +:+ LF)
          +:+ concatLines (map (outlineLine plainApp plainSettings)
                             (renderedLines (dfsAllPaths childrenGraph "Root"))))
  /\ Forall (fun line => exists w, walk childrenGraph "Root" line.1 w
                                   /\ length w = line.2 + 2)
       (renderedLines (dfsAllPaths childrenGraph "Root")).
Proof.
  apply (localIndex_depth_is_distance plainApp childrenGraph
           (mkFile "Root" "Root.md") plainSettings).
  apply (bool_decide_unpack _). vm_compute. exact I.
Defined.

(** ** More on [removeDuplicateImplied] *)

Lemma filter_eq_self {A} (P : A -> Prop) `{forall x, Decision (P x)} (l : list A) :
  filter P l = l <-> Forall P l.
Proof.
  induction l as [|x l IH].
  - split; [constructor|done].
  - rewrite filter_cons. destruct (decide (P x)) as [HP|HP].
    + split.
      * intros [= Heq]. constructor; [done|by apply IH].
      * intros [_ Hl]%Forall_cons. f_equal. by apply IH.
    + split.
      * intros Heq. pose proof (length_filter P l) as Hlen.
        rewrite Heq in Hlen. simpl in Hlen. lia.
      * by intros [? _]%Forall_cons.
Qed.

(** X10. [removeDuplicateImplied] is idempotent, and it returns the implied
    items unchanged exactly when none of their targets is the target of a
    real item. *)
Theorem removeDuplicateImplied_idempotent (reals implieds : list internalLinkObj) :
  removeDuplicateImplied reals (removeDuplicateImplied reals implieds)
  = removeDuplicateImplied reals implieds
  /\ (removeDuplicateImplied reals implieds = implieds
      <-> Forall (fun implied => to implied ∉ map to reals) implieds).
Proof.
  rewrite !removeDuplicateImplied_filter. split.
  - apply filter_eq_self, Forall_forall.
    by intros x [? _]%list_elem_of_filter.
  - apply filter_eq_self.
Qed.

(** ** [squareItems] and the implied siblings *)

(** X11. [squareItems] returns one link per successor (for real items) or
    predecessor (for implied items) of the current note, in the order of the
    graph, each with the classes of its kind; for a note the graph does not
    hold the list is empty.  The test of the length that guards the loop
    changes nothing. *)
Theorem squareItems_lists_neighbours (app : App) (g : Graph) (currFile : TFile)
    (realQ : bool) :
  let items :=
    orEmpty (if realQ then successors g (basename currFile)
             else predecessors g (basename currFile)) in
  squareItems app g currFile realQ
  = map (fun item =>
           mkLink item
             ("internal-link breadcrumbs-link"
              +:+ (if unresolvedQ app item (filePath currFile)
                   then " is-unresolved" else "")
              +:+ (if realQ then "" else " breadcrumbs-implied")))
      items
  /\ map to (squareItems app g currFile realQ) = items.
Proof.
  intros items.
  assert (squareItems app g currFile realQ
          = map (fun item =>
                   mkLink item
                     ("internal-link breadcrumbs-link"
                      +:+ (if unresolvedQ app item (filePath currFile)
                           then " is-unresolved" else "")
                      +:+ (if realQ then "" else " breadcrumbs-implied")))
              items) as Heq.
  { unfold squareItems.
    replace (if realQ then orEmpty (successors g (basename currFile))
             else orEmpty (predecessors g (basename currFile)))
      with items by (unfold items; by destruct realQ).
    destruct (0 <? length items) eqn:Hlen; [done|].
    apply Nat.ltb_ge in Hlen. destruct items; [done|simpl in Hlen; lia]. }
  split; [done|]. rewrite Heq, map_map. simpl. apply map_id.
Qed.

Lemma indexOf_first (l1 l2 : list string) (x : string) :
  x ∉ l1 -> indexOf (l1 ++ x :: l2) x = Z.of_nat (length l1).
Proof.
  intros Hx. unfold indexOf. apply findIndex_app_first.
  - intros y Hy. apply bool_decide_eq_false. by intros ->.
  - by apply bool_decide_eq_true.
Qed.

Lemma splice1_at {A} (l1 l2 : list A) (x : A) :
  splice1 (Z.of_nat (length l1)) (l1 ++ x :: l2) = l1 ++ l2.
Proof.
  unfold splice1. rewrite length_app. simpl.
  destruct (Z.ltb_spec (Z.of_nat (length l1)) 0) as [?|_]; [lia|].
  rewrite Z.min_l by lia. rewrite Nat2Z.id. apply delete_middle.
Qed.

Lemma impliedSiblingsOf_targets app gParents currFile parent l1 l2 :
  orEmpty (predecessors gParents parent) = l1 ++ basename currFile :: l2 ->
  basename currFile ∉ l1 ->
  map to (impliedSiblingsOf app gParents currFile parent) = l1 ++ l2.
Proof.
  intros Hps Hl1. unfold impliedSiblingsOf. rewrite Hps.
  rewrite indexOf_first by done. rewrite splice1_at.
  rewrite map_map. simpl. apply map_id.
Qed.

(** X12. For a parent whose predecessors are free of repetitions and hold
    the current note, the implied siblings [draw] derives from that parent
    are the parent's other predecessors, in their order: the current note is
    removed and nothing else. *)
Theorem impliedSiblings_omit_current_note (app : App) (gParents : Graph)
    (currFile : TFile) (parent : string) :
  basename currFile ∈ orEmpty (predecessors gParents parent) ->
  NoDup (orEmpty (predecessors gParents parent)) ->
  map to (impliedSiblingsOf app gParents currFile parent)
  = filter (fun sibling => sibling <> basename currFile)
      (orEmpty (predecessors gParents parent))
  /\ basename currFile ∉ map to (impliedSiblingsOf app gParents currFile parent).
Proof.
  intros Hin Hnd.
  destruct (list_elem_of_split_l _ _ Hin) as (l1 & l2 & Hps & Hl1).
  rewrite (impliedSiblingsOf_targets app gParents currFile parent l1 l2 Hps Hl1).
  rewrite Hps in *. clear Hps.
  apply NoDup_app in Hnd as (_ & _ & [Hl2 _]%NoDup_cons).
  split.
  - rewrite filter_app, filter_cons_False by (intros Hne; by apply Hne).
    f_equal; symmetry; apply filter_eq_self, Forall_forall; by intros y Hy ->.
  - by intros [?|?]%elem_of_app.
Qed.

Lemma impliedSiblings_omit_current_note_witness :
  map to (impliedSiblingsOf plainApp parentsOfChild (mkFile "Child" "Child.md") "ParentA")
  = filter (fun sibling => sibling <> "Child")
      (orEmpty (predecessors parentsOfChild "ParentA"))
  /\ "Child" ∉ map to (impliedSiblingsOf plainApp parentsOfChild
                         (mkFile "Child" "Child.md") "ParentA").
Proof.
  apply (impliedSiblings_omit_current_note plainApp parentsOfChild
           (mkFile "Child" "Child.md") "ParentA").
  - apply (bool_decide_unpack _). vm_compute. exact I.
  - apply (bool_decide_unpack _). vm_compute. exact I.
Defined.

(** ** More on the filter of [draw] *)

Lemma keepFirstSeen_fresh {A} `{EqDecision A} (seen l : list A) :
  NoDup l -> (forall x, x ∈ l -> x ∉ seen) -> keepFirstSeen seen l = l.
Proof.
  revert seen. induction l as [|x l IH]; intros seen Hnd Hseen; [done|].
  apply NoDup_cons in Hnd as [Hx Hl]. simpl.
  rewrite bool_decide_eq_false_2 by (apply Hseen; left).
  f_equal. apply IH; [done|].
  intros y Hy [?| ->%list_elem_of_singleton]%elem_of_app; [|done].
  apply (Hseen y); [by right|done].
Qed.

(** X13. The filter [draw] applies to the adjacency list leaves a list
    without repeated entries untouched, changes every other list, and
    applying it twice is the same as applying it once. *)
Theorem noDoubles_fixes_duplicate_free (adjList : list AdjListItem) :
  (noDoubles adjList = adjList <-> NoDup adjList)
  /\ noDoubles (noDoubles adjList) = noDoubles adjList.
Proof.
  rewrite !noDoubles_keepFirstSeen.
  assert (forall l : list AdjListItem, NoDup l -> keepFirstSeen [] l = l) as Hfix.
  { intros l Hl. apply keepFirstSeen_fresh; [done|]. intros x _ Hx.
    by apply elem_of_nil in Hx. }
  split.
  - split; [|apply Hfix]. intros <-. apply keepFirstSeen_NoDup.
  - apply Hfix, keepFirstSeen_NoDup.
Qed.

(** ** Migration of the old settings *)

Lemma commuting_section_foldl {A} (f : A -> A) (gs : list (A -> A)) :
  Forall (fun g => forall x, f (g x) = g (f x)) gs ->
  forall x, f (foldl (fun x g => g x) x gs) = foldl (fun x g => g x) (f x) gs.
Proof.
  induction 1 as [|g gs Hg _ IH]; intros x; [done|].
  simpl. by rewrite IH, Hg.
Qed.

Lemma commuting_idempotents_foldl {A} (fs : list (A -> A)) :
  Forall (fun f => forall x, f (f x) = f x) fs ->
  ForallOrdPairs (fun f g => forall x, f (g x) = g (f x)) fs ->
  forall x,
    foldl (fun x f => f x) (foldl (fun x f => f x) x fs) fs
    = foldl (fun x f => f x) x fs.
Proof.
  intros Hidem Hcomm. induction Hcomm as [|f fs Hf _ IH]; intros x; [done|].
  apply Forall_cons in Hidem as [Hff Hidem]. simpl.
  rewrite (commuting_section_foldl f fs Hf (f x)), Hff. by apply IH.
Qed.

Ltac section_cases :=
  intros;
  unfold Migrate.migrate_hierarchies, Migrate.migrate_tag_note,
    Migrate.migrate_dendron_note, Migrate.migrate_date_note,
    Migrate.migrate_readable_line_width, Migrate.migrate_grid_enabled,
    Migrate.migrate_no_path_message, Migrate.migrate_prev_next,
    Migrate.migrate_rebuild_graph, Migrate.migrate_list_index,
    Migrate.migrate_freeze_implied_edges;
  repeat case_match; reflexivity.

Lemma sections_idempotent defaults old :
  Forall (fun f : Migrate.BreadcrumbsSettings -> Migrate.BreadcrumbsSettings =>
            forall s, f (f s) = f s)
    (Migrate.sections defaults old).
Proof. unfold Migrate.sections. repeat constructor; section_cases. Qed.

Lemma sections_commute defaults old :
  ForallOrdPairs
    (fun f g : Migrate.BreadcrumbsSettings -> Migrate.BreadcrumbsSettings =>
       forall s, f (g s) = g (f s))
    (Migrate.sections defaults old).
Proof. unfold Migrate.sections. repeat constructor; section_cases. Qed.

Lemma migrate_old_settings_foldl defaults old s :
  Migrate.migrate_old_settings defaults old s
  = foldl (fun s section => section s) s (Migrate.sections defaults old).
Proof. reflexivity. Qed.

Lemma foldl_keeps {A B} (P : A -> B) (fs : list (A -> A)) :
  Forall (fun f => forall s, P (f s) = P s) fs ->
  forall s, P (foldl (fun s f => f s) s fs) = P s.
Proof.
  induction 1 as [|f fs Hf _ IH]; intros s; [done|].
  simpl. by rewrite IH, Hf.
Qed.

(** X14. Migrating settings that have been migrated changes nothing: the old
    fields are kept, so the function runs again at every start, and a second
    run assigns what the first one assigned. *)
Theorem migrate_old_settings_idempotent (defaults : Migrate.Defaults)
    (old : Migrate.OLD_BREADCRUMBS_SETTINGS) (s : Migrate.BreadcrumbsSettings) :
  Migrate.migrate_old_settings defaults old
    (Migrate.migrate_old_settings defaults old s)
  = Migrate.migrate_old_settings defaults old s.
Proof.
  rewrite !migrate_old_settings_foldl.
  apply commuting_idempotents_foldl;
    [apply sections_idempotent|apply sections_commute].
Qed.

(** X15. The Dendron settings are migrated all or nothing: when the four old
    fields are defined the new [dendron_note] holds exactly their values,
    and when one of them is undefined [dendron_note] is left as it was. *)
Theorem migrate_dendron_all_or_nothing (defaults : Migrate.Defaults)
    (old : Migrate.OLD_BREADCRUMBS_SETTINGS) (s : Migrate.BreadcrumbsSettings) :
  Migrate.dendron_note
    (Migrate.explicit_edge_sources (Migrate.migrate_old_settings defaults old s))
  = match Migrate.addDendronNotes old, Migrate.dendronNoteField old,
          Migrate.trimDendronNotes old, Migrate.dendronNoteDelimiter old with
    | Some add, Some field, Some trim, Some delimiter =>
        Migrate.mkDendronNote add field delimiter trim
    | _, _, _, _ => Migrate.dendron_note (Migrate.explicit_edge_sources s)
    end.
Proof.
  rewrite migrate_old_settings_foldl.
  change (Migrate.sections defaults old)
    with ([Migrate.migrate_hierarchies defaults old; Migrate.migrate_tag_note old]
            ++ [Migrate.migrate_dendron_note old]
            ++ [Migrate.migrate_date_note old;
                Migrate.migrate_readable_line_width old;
                Migrate.migrate_grid_enabled old;
                Migrate.migrate_no_path_message old;
                Migrate.migrate_prev_next old;
                Migrate.migrate_rebuild_graph old;
                Migrate.migrate_list_index defaults old;
                Migrate.migrate_freeze_implied_edges old]).
  rewrite !foldl_app.
  rewrite (foldl_keeps
             (fun s => Migrate.dendron_note (Migrate.explicit_edge_sources s)))
    by (repeat constructor; section_cases).
  set (s' := foldl _ s _).
  assert (Migrate.dendron_note (Migrate.explicit_edge_sources s')
          = Migrate.dendron_note (Migrate.explicit_edge_sources s)) as Hs'.
  { apply (foldl_keeps
             (fun s => Migrate.dendron_note (Migrate.explicit_edge_sources s))).
    repeat constructor; section_cases. }
  simpl. unfold Migrate.migrate_dendron_note.
  repeat case_match; done.
Qed.

(** X16. The list-index options are migrated when the three old index fields
    are defined: the link kind becomes "wiki" or "none" according to
    [wikilinkIndex], the indent is the old indent, the node options are the
    default ones with the old alias switch, and the remaining options are
    kept; otherwise the options are left as they were. *)
Theorem migrate_list_index_options (defaults : Migrate.Defaults)
    (old : Migrate.OLD_BREADCRUMBS_SETTINGS) (s : Migrate.BreadcrumbsSettings) :
  let options s :=
    Migrate.list_index_default_options (Migrate.list_index (Migrate.commands s)) in
  options (Migrate.migrate_old_settings defaults old s)
  = match Migrate.wikilinkIndex old, Migrate.aliasesInIndex old,
          Migrate.createIndexIndent old with
    | Some wikilink, Some aliases, Some index_indent =>
        Migrate.mkListIndexOptions index_indent
          (if wikilink then "wiki" else "none")
          (Migrate.mkShowNodeOptions aliases
             (Migrate.show_node_options_rest
                (Migrate.DEFAULT_show_node_options defaults)))
          (Migrate.list_index_options_rest (options s))
    | _, _, _ => options s
    end.
Proof.
  intros options. rewrite migrate_old_settings_foldl.
  change (Migrate.sections defaults old)
    with ([Migrate.migrate_hierarchies defaults old; Migrate.migrate_tag_note old;
           Migrate.migrate_dendron_note old; Migrate.migrate_date_note old;
           Migrate.migrate_readable_line_width old;
           Migrate.migrate_grid_enabled old;
           Migrate.migrate_no_path_message old;
           Migrate.migrate_prev_next old;
           Migrate.migrate_rebuild_graph old]
            ++ [Migrate.migrate_list_index defaults old]
            ++ [Migrate.migrate_freeze_implied_edges old]).
  rewrite !foldl_app.
  rewrite (foldl_keeps options) by (repeat constructor; section_cases).
  set (s' := foldl _ s _).
  assert (options s' = options s) as Hs'.
  { apply (foldl_keeps options). repeat constructor; section_cases. }
  simpl. unfold Migrate.migrate_list_index.
  repeat case_match; try done; unfold options in *; simpl; by rewrite Hs'.
Qed.

(** X17. When the old hierarchies and the old implied relations are both
    defined, the migrated hierarchies are the old ones in their order, all
    with the same implied relationships: the six old switches under their
    new names, completed from the blank hierarchy.  When one of the two is
    undefined the hierarchies are left as they were. *)
Theorem migrate_hierarchies_wrapped (defaults : Migrate.Defaults)
    (old : Migrate.OLD_BREADCRUMBS_SETTINGS) (s : Migrate.BreadcrumbsSettings) :
  Migrate.hierarchies (Migrate.migrate_old_settings defaults old s)
  = match Migrate.userHiers old, Migrate.impliedRelations old with
    | Some hiers, Some relations =>
        map (fun hierarchy =>
               Migrate.mkHierarchy hierarchy
                 (Migrate.mkImpliedRelationships
                    (Migrate.siblingIdentity relations)
                    (Migrate.cousinsIsSibling relations)
                    (Migrate.sameParentIsSibling relations)
                    (Migrate.siblingsSiblingIsSibling relations)
                    (Migrate.siblingsParentIsParent relations)
                    (Migrate.parentsSiblingsIsParents relations)
                    (Migrate.implied_relationships_rest
                       (Migrate.blank_implied_relationships defaults))))
          hiers
    | _, _ => Migrate.hierarchies s
    end.
Proof.
  rewrite migrate_old_settings_foldl.
  change (Migrate.sections defaults old)
    with ([Migrate.migrate_hierarchies defaults old]
            ++ [Migrate.migrate_tag_note old;
                Migrate.migrate_dendron_note old; Migrate.migrate_date_note old;
                Migrate.migrate_readable_line_width old;
                Migrate.migrate_grid_enabled old;
                Migrate.migrate_no_path_message old;
                Migrate.migrate_prev_next old;
                Migrate.migrate_rebuild_graph old;
                Migrate.migrate_list_index defaults old;
                Migrate.migrate_freeze_implied_edges old]).
  rewrite !foldl_app.
  rewrite (foldl_keeps Migrate.hierarchies) by (repeat constructor; section_cases).
  simpl. unfold Migrate.migrate_hierarchies.
  repeat case_match; done.
Qed.
